(** * RagByKilo: chunking and content-addressed ingestion

    A shallow embedding of [src/url_processor.py] (class [URLChunker], and
    [clean_text], [extract_text] and [extract_metadata] of
    [WebContentExtractor]) and of [src/chroma_manager.py] (method
    [ChromaDBManager.add_texts]).

    Python [str] values are Rocq strings (characters restricted to 8-bit code
    points), dictionaries are [gmap]s keyed by strings, [int] arguments are
    [Z], list positions and lengths are [nat].  The object attributes that the
    methods mutate ([self.text_splitter], the collections of the store client)
    are threaded as an explicit state; a raised exception is the left injection
    of the result and leaves the mutations made so far in place, as in Python.

    Three collaborators are libraries and not part of the repository:
    the text splitter, SHA-256 and the vector store.  The pipeline is
    parameterised by the first two; the store follows the interface that the
    specification requires of it. *)

From Stdlib Require Import ZArith Lia Ascii.
From stdpp Require Import base option list gmap strings pretty.


(** ** Python string primitives *)

Module PyStr.

(** [len(s)] *)
Definition len (s : string) : nat := String.length s.

(** [str.isspace] on one character (code points below 256). *)
Definition isspace (c : ascii) : bool :=
  match c with
  | "009" | "010" | "011" | "012" | "013"
  | "028" | "029" | "030" | "031" | " " | "133" | "160" => true
  | _ => false
  end%char.

Fixpoint lstrip (s : string) : string :=
  match s with
  | String c rest => if isspace c then lstrip rest else s
  | "" => ""
  end.

Definition rstrip (s : string) : string :=
  String.rev (lstrip (String.rev s)).

(** [s.strip()] *)
Definition strip (s : string) : string := rstrip (lstrip s).

(** Truthiness of a string: [bool(s)]. *)
Definition truthy (s : string) : bool :=
  match s with "" => false | _ => true end.

Fixpoint drop (n : nat) (s : string) : string :=
  match n, s with
  | S k, String _ rest => drop k rest
  | _, _ => s
  end.

(** The last [n] characters of [s] (all of [s] when it is shorter). *)
Definition suffix (n : nat) (s : string) : string :=
  drop (len s - n) s.

(** The one-character strings of [s], in order: [list(s)]. *)
Fixpoint chars (s : string) : list string :=
  match s with
  | "" => []
  | String c rest => String c "" :: chars rest
  end.

(** [sep in s], for a non-empty [sep]. *)
Fixpoint contains (sep s : string) : bool :=
  String.prefix sep s ||
  match s with
  | "" => false
  | String _ rest => contains sep rest
  end.

End PyStr.

(** ** The separator chunker (specification, section 4.1)

    The repository delegates splitting to a third-party splitter class whose
    code is not part of it; the algorithm below is the one the specification
    prescribes for it. *)

Module SeparatorChunker.

(** Modelled from the spec: the ChunkingPolicy of section 3, whose code is
    the third-party splitter's constructor arguments. *)
Record ChunkingPolicy := {
  targetSize : nat;
  overlap : nat;
  separatorPriority : list string
}.

(** Modelled from the spec: step 2 of section 4.1, missing with the
    splitter.  The text is cut at every occurrence of [sep] (left to right,
    occurrences do not overlap) and the separator is re-appended to each
    piece except the last.  [skip] counts the characters of a matched
    separator that are still to be passed over. *)
Fixpoint pieces_go (sep : string) (skip : nat) (cur text : string)
  : list string :=
  match text with
  | "" => [cur]
  | String c rest =>
      match skip with
      | S k => pieces_go sep k cur rest
      | 0 =>
          if String.prefix sep text
          then (cur +:+ sep) :: pieces_go sep (PyStr.len sep - 1) "" rest
          else pieces_go sep 0 (cur +:+ String c "") rest
      end
  end.

Definition pieces (sep text : string) : list string :=
  pieces_go sep 0 "" text.

(** Modelled from the spec: "if the buffer is non-empty, emit it", the
    emission of steps 3 and 5 of section 4.1. *)
Definition emit (buf : string) : list string :=
  if PyStr.truthy buf then [buf] else [].

(** Modelled from the spec: the seed of step 3 of section 4.1, the
    overlap tail of the chunk just emitted.  A piece is appended only under
    the test [len buffer + len piece <= targetSize], and section 8 bounds
    every chunk by [targetSize]: the seed is the trailing [overlap]
    characters of the chunk, or as many of them as leave room for the piece
    [p] that opens the new buffer. *)
Definition seed (T o : nat) (chunk p : string) : string :=
  PyStr.suffix (o `min` (T - PyStr.len p)) chunk.

(** Modelled from the spec: steps 3 to 5 of section 4.1, missing with the
    splitter.  A piece is appended when [len buffer + len piece <=
    targetSize].  Otherwise a piece that alone exceeds [targetSize] is handed
    to [recurse] (the remaining separators) and its sub-chunks are spliced in
    place, after the buffer was emitted; any other piece makes the buffer be
    emitted and opens the new buffer, seeded with the overlap tail of the
    chunk just emitted.  The last buffer is emitted at the end. *)
Fixpoint pack (T o : nat) (recurse : string → list string)
    (ps : list string) (buf : string) : list string :=
  match ps with
  | [] => emit buf
  | p :: rest =>
      if decide (PyStr.len buf + PyStr.len p ≤ T)
      then pack T o recurse rest (buf +:+ p)
      else if decide (T < PyStr.len p)
      then emit buf ++ recurse p ++ pack T o recurse rest ""
      else emit buf ++ pack T o recurse rest (seed T o buf p +:+ p)
  end.

(** Modelled from the spec: the fallback of steps 1 and 4 of section 4.1,
    the empty separator: the pieces are the single characters, and a
    character is an atomic unit that no further separator can split. *)
Definition char_split (T o : nat) (text : string) : list string :=
  pack T o (λ p, [p]) (PyStr.chars text) "".

(** Modelled from the spec: steps 1 and 4 of section 4.1.  The first
    separator of the priority list that occurs in the text is chosen; an
    oversized piece is split again with the separators after the chosen one;
    the empty separator, or an exhausted list, is the character-level
    split. *)
Fixpoint split_with (T o : nat) (seps : list string) (text : string)
  : list string :=
  match seps with
  | [] => char_split T o text
  | sep :: rest =>
      if decide (sep = "") then char_split T o text
      else if PyStr.contains sep text
      then pack T o (split_with T o rest) (pieces sep text) ""
      else split_with T o rest text
  end.

(** Modelled from the spec: step 6 of section 4.1, a chunk that is empty or
    whitespace-only after trimming. *)
Definition blank (chunk : string) : bool :=
  negb (PyStr.truthy (PyStr.strip chunk)).

(** Modelled from the spec: the contract [split(text, policy)] of section
    4.1, steps 1 to 6. *)
Definition split (text : string) (policy : ChunkingPolicy) : list string :=
  filter (λ chunk, blank chunk = false)
    (split_with (targetSize policy) (overlap policy)
       (separatorPriority policy) text).

End SeparatorChunker.

(** ** Exceptions and the state-and-exception monad *)

(** A Python exception that [except Exception] catches: its class and the
    text that [str(e)] gives. *)
Record PyExc := { exc_class : string; exc_str : string }.

Definition ValueError (msg : string) : PyExc :=
  {| exc_class := "ValueError"; exc_str := msg |}.

(** [metadata['url']] on a dictionary without that key; [str(e)] is the
    [repr] of the key. *)
Definition KeyError (key : string) : PyExc :=
  {| exc_class := "KeyError"; exc_str := "'" +:+ key +:+ "'" |}.

(** The error of the specification's taxonomy (section 7) for a bad policy. *)
Definition InvalidPolicyError (msg : string) : PyExc :=
  {| exc_class := "InvalidPolicyError"; exc_str := msg |}.

(** A method run on an object whose attributes are the state [S]: it either
    returns a value or raises, and in both cases leaves a state behind. *)
Definition M (S A : Type) : Type := S → (PyExc + A) * S.

#[global] Instance M_ret {S} : MRet (M S) := λ A a s, (inr a, s).

#[global] Instance M_bind {S} : MBind (M S) := λ A B k m s,
  match m s with
  | (inr a, s') => k a s'
  | (inl e, s') => (inl e, s')
  end.

Definition raise {S A} (e : PyExc) : M S A := λ s, (inl e, s).

(** The outcome of a call into a collaborator, lifted into the monad. *)
Definition outcome {S A} (r : PyExc + A) : M S A := λ s, (r, s).

(** [try: body except Exception as e: handler(e)] *)
Definition try_except {S A} (body : M S A) (handler : PyExc → M S A) : M S A :=
  λ s, match body s with
       | (inl e, s') => handler e s'
       | (inr a, s') => (inr a, s')
       end.

Definition gets {S A} (f : S → A) : M S A := λ s, (inr (f s), s).
Definition modify {S} (f : S → S) : M S unit := λ s, (inr tt, f s).

(** ** Data *)

(** Metadata values: the extractor produces strings, the assembler adds the
    integers [chunk_index] and [chunk_size]. *)
Inductive PyVal :=
  | VStr (s : string)
  | VInt (n : Z).

#[global] Instance PyVal_eq_dec : EqDecision PyVal.
Proof. solve_decision. Defined.

(** [str(v)], as the f-string formats a value. *)
Definition py_str (v : PyVal) : string :=
  match v with
  | VStr s => s
  | VInt n => pretty n
  end.

Abbreviation Metadata := (gmap string PyVal).

(** A stored record: the document text and its metadata, keyed by id. *)
Abbreviation Collection := (gmap string (string * Metadata)).

(** The collections of the store client, by name. *)
Abbreviation Store := (gmap string Collection).

(** The configuration of the third-party splitter object. *)
Record TextSplitter := {
  splitter_size : Z;
  splitter_overlap : Z;
  splitter_separators : list string
}.

(** The dictionary returned by [create_chunks]. *)
Record ChunksData := {
  chunks : list string;
  ids : list string;
  metadatas : list Metadata
}.

(** The dictionary returned by [process_url].  The keys [error],
    [total_characters] and [metadata] are present on one path only; the
    wall-clock [processing_time] is left out. *)
Record ProcessResult := {
  success : bool;
  url : string;
  chunks_created : nat;
  error : option string;
  total_characters : option nat;
  metadata : option Metadata
}.

(** The attributes of a [URLChunker] that its methods read and write. *)
Record URLChunker := {
  text_splitter : TextSplitter;
  chroma_manager : Store
}.

(** ** Collaborators *)

(** [hashlib.sha256(s.encode('utf-8')).hexdigest()] *)
Class Digest := sha256_hexdigest : string → string.

(** The third-party splitter: [split_text] of a configured splitter, and the
    separator list its constructor uses when none is given. *)
Class SplitterLib := {
  split_text : TextSplitter → string → PyExc + list string;
  library_separators : list string
}.

(** The fields that [extract_metadata] reads off the parsed page. *)
Record PageFields := {
  title : string;
  description : string;
  keywords : string;
  author : string;
  language : string
}.

(** What lies outside the process during a run: the content source, the
    clock, and the faults of the store. *)
Record World := {
  (** [WebContentExtractor.fetch_content]: the page, or the exception the
      request raised. *)
  fetch_content : string → PyExc + string;
  (** The page fields found by the HTML parser; [None] when parsing raises
      inside [extract_metadata]. *)
  soup_fields : string → option PageFields;
  (** [datetime.now().isoformat()] *)
  now_isoformat : string;
  (** [WebContentExtractor.extract_text] *)
  extract_text : string → PyExc + string;
  (** [client.get_or_create_collection(name)] raising. *)
  collection_fault : string → option PyExc;
  (** [collection.upsert(...)] raising, given the collection and the ids. *)
  upsert_fault : string → list string → option PyExc;
  (** The positions of the batch whose records the store had written when
      that call raised (specification, section 4.4: a store-side failure may
      come after partial writes). *)
  upsert_written : string → list string → list nat
}.

(** ** The store (specification, section 6) *)

(** Modelled from the spec: [upsert(collectionRef, ids, documents,
    metadatas)] of section 6, whose code is the vector-store library:
    "re-upserting the same id replaces its document/metadata".  The records
    are written in list order.  (For an id that occurs twice in one call the
    section does not say which record is kept; the statements below are
    made for ids that occur once in their call, or do not depend on it.) *)
Definition upsert (documents ids : list string) (metas : list Metadata)
    (c : Collection) : Collection :=
  foldl (λ acc r, <[r.1 := r.2]> acc) c (zip ids (zip documents metas)).

(** Modelled from the spec: [getOrCreateCollection(name)] of section 6, whose
    code is the vector-store library: an existing collection is kept, a
    missing one is created empty. *)
Definition client_get_or_create (name : string) (st : Store) : Store :=
  match st !! name with
  | Some _ => st
  | None => <[name := ∅]> st
  end.

(** [ChromaDBManager.get_or_create_collection] *)
Definition get_or_create_collection (w : World) (name : string)
  : M Store unit :=
  try_except
    (match collection_fault w name with
     | Some e => raise e
     | None => modify (client_get_or_create name)
     end)
    (λ e, raise e).

(** The entries of [l] at the given positions. *)
Definition at_positions {A} (positions : list nat) (l : list A) : list A :=
  omap (λ i, l !! i) positions.

(** Modelled from the spec: the collection [c] after an upsert call that
    raised, whose code is the vector-store library.  Section 4.4: after "a
    store-side failure after partial writes" the store "may already hold
    some records"; they are the records at the positions that the world
    names, written in that order. *)
Definition upsert_partial (w : World) (name : string)
    (documents ids : list string) (metas : list Metadata) (c : Collection)
  : Collection :=
  let written := upsert_written w name ids in
  upsert (at_positions written documents) (at_positions written ids)
    (at_positions written metas) c.

(** [collection.upsert(documents=..., ids=..., metadatas=...)] on the
    collection called [name]. *)
Definition collection_upsert (w : World) (name : string)
    (documents ids : list string) (metas : list Metadata) : M Store unit :=
  match upsert_fault w name ids with
  | Some e =>
      modify (λ st,
                <[name := upsert_partial w name documents ids metas
                            (st !!! name)]> st);;
      raise e
  | None =>
      modify (λ st,
                <[name := upsert documents ids metas (st !!! name)]> st)
  end.

(** [ChromaDBManager.count_items]: the collection must exist. *)
Definition count_items (name : string) (st : Store) : PyExc + nat :=
  match st !! name with
  | Some c => inr (size c)
  | None => inl (ValueError ("Collection " +:+ name +:+ " does not exist."))
  end.

(** A method of the manager object, called on [self.chroma_manager]. *)
Definition on_manager {A} (m : M Store A) : M URLChunker A := λ s,
  let '(r, st) := m (chroma_manager s) in
  (r, {| text_splitter := text_splitter s; chroma_manager := st |}).

(** ** The splitter object *)

Definition nl : string := String "010"%char "".

(** The separator list that [URLChunker] passes to the splitter. *)
Definition russian_separators : list string :=
  [nl +:+ nl; nl; ". "; "! "; "? "; "; "; ", "; " "; ""].

(** Modelled from the spec: the constructor of the third-party splitter, a
    ChunkingPolicy of section 3, "invalid combinations (overlap >= targetSize,
    targetSize <= 0) are rejected at construction" with the
    [InvalidPolicyError] of section 7. *)
Definition RecursiveCharacterTextSplitter (chunk_size chunk_overlap : Z)
    (seps : list string) : PyExc + TextSplitter :=
  if decide (chunk_size ≤ 0 ∨ chunk_size ≤ chunk_overlap)%Z
  then inl (InvalidPolicyError "invalid chunking policy")
  else inr {| splitter_size := chunk_size; splitter_overlap := chunk_overlap;
              splitter_separators := seps |}.

(** The splitter that [URLChunker.__init__] installs. *)
Definition default_splitter : TextSplitter :=
  {| splitter_size := 1000; splitter_overlap := 200;
     splitter_separators := russian_separators |}.

(** [URLChunker.__init__] *)
Definition URLChunker_init (manager : Store) : URLChunker :=
  {| text_splitter := default_splitter; chroma_manager := manager |}.

(** ** [WebContentExtractor.extract_metadata] *)

Definition extract_metadata (w : World) (html url : string) : Metadata :=
  let base : Metadata :=
    <["processed_date" := VStr (now_isoformat w)]> {["url" := VStr url]} in
  match soup_fields w html with
  | Some f =>
      <["language" := VStr (language f)]>
        (<["author" := VStr (author f)]>
           (<["keywords" := VStr (keywords f)]>
              (<["description" := VStr (description f)]>
                 (<["title" := VStr (title f)]> base))))
  | None =>
      <["language" := VStr ""]>
        (<["author" := VStr ""]>
           (<["keywords" := VStr ""]>
              (<["description" := VStr ""]>
                 (<["title" := VStr ""]> base))))
  end.

(** ** [WebContentExtractor.clean_text] and [extract_text] *)

(** What [re.sub] writes for a maximal run of characters of the class: the
    replacement when the run has at least [least] characters, and the run
    itself when it is shorter, since the pattern does not match it. *)
Definition flush_run (least : nat) (repl run : string) : string :=
  match run with
  | "" => ""
  | String _ _ => if decide (least ≤ PyStr.len run) then repl else run
  end.

(** [re.sub(pattern, repl, s)] for a pattern [[class]{least,}]: every
    maximal run of at least [least] characters of the class is replaced by
    [repl].  [run] holds the characters of the run being read. *)
Fixpoint sub_runs (cls : ascii → bool) (least : nat) (repl run s : string)
  : string :=
  match s with
  | "" => flush_run least repl run
  | String c rest =>
      if cls c then sub_runs cls least repl (run +:+ String c "") rest
      else flush_run least repl run
             +:+ String c (sub_runs cls least repl "" rest)
  end.

Definition re_sub (cls : ascii → bool) (least : nat) (repl s : string)
  : string :=
  sub_runs cls least repl "" s.

(** The class [[x]] of one character. *)
Definition is_char (x c : ascii) : bool := bool_decide (c = x).

(** The class [[\r\n\t]]. *)
Definition is_crlftab (c : ascii) : bool :=
  match c with
  | "009" | "010" | "013" => true
  | _ => false
  end%char.

(** [WebContentExtractor.clean_text]; the class [\s] of a [str] pattern is
    the class of [str.isspace]. *)
Definition clean_text (text : string) : string :=
  if negb (PyStr.truthy text) then ""
  else
    let text := re_sub PyStr.isspace 1 " " text in
    let text := re_sub (is_char ".") 3 "..." text in
    let text := re_sub (is_char "!") 2 "!" text in
    let text := re_sub (is_char "?") 2 "?" text in
    let text := re_sub is_crlftab 1 " " text in
    PyStr.strip text.

(** [WebContentExtractor.extract_text]: the text of the parsed page,
    cleaned.  [get_text] stands for the HTML parser: the page without its
    script, style and navigation elements, read with
    [soup.get_text(separator=' ', strip=True)], or the exception raised on
    the way, which [extract_text] logs and raises again. *)
Definition extract_text_with (get_text : string → PyExc + string)
    (html : string) : PyExc + string :=
  match get_text html with
  | inl e => inl e
  | inr text => inr (clean_text text)
  end.

(** ** [URLChunker] *)

Section Methods.
Context {digest : Digest} {lib : SplitterLib}.

(** The string that is hashed: [f"{metadata['url']}_{i}_{chunk}"]. *)
Definition chunk_key (u : PyVal) (i : nat) (chunk : string) : string :=
  py_str u +:+ "_" +:+ pretty i +:+ "_" +:+ chunk.

Definition chunk_id (u : PyVal) (i : nat) (chunk : string) : string :=
  sha256_hexdigest (chunk_key u i chunk).

(** The metadata of chunk [i]: a copy of the base metadata with
    [chunk_index], [chunk_size] and, for a truthy [source_name], [source]. *)
Definition chunk_metadata (md : Metadata) (source_name : option string)
    (i : nat) (chunk : string) : Metadata :=
  let m := <["chunk_size" := VInt (Z.of_nat (PyStr.len chunk))]>
             (<["chunk_index" := VInt (Z.of_nat i)]> md) in
  match source_name with
  | Some name => if PyStr.truthy name then <["source" := VStr name]> m else m
  | None => m
  end.

(** The loop of [create_chunks] from position [i] on, with the three lists
    built so far. *)
Fixpoint create_chunks_loop (md : Metadata) (source_name : option string)
    (i : nat) (text_chunks : list string) (acc : ChunksData)
  : PyExc + ChunksData :=
  match text_chunks with
  | [] => inr acc
  | chunk :: rest =>
      match md !! "url" with
      | None => inl (KeyError "url")
      | Some u =>
          create_chunks_loop md source_name (S i) rest
            {| chunks := chunks acc ++ [chunk];
               ids := ids acc ++ [chunk_id u i chunk];
               metadatas := metadatas acc
                              ++ [chunk_metadata md source_name i chunk] |}
      end
  end.

(** [URLChunker.create_chunks] *)
Definition create_chunks (text : string) (md : Metadata)
    (source_name : option string) : M URLChunker ChunksData :=
  try_except
    (splitter ← gets text_splitter;
     text_chunks ← outcome (split_text splitter text);
     outcome (create_chunks_loop md source_name 0 text_chunks
                {| chunks := []; ids := []; metadatas := [] |}))
    (λ e, raise e).

(** [URLChunker.save_to_chroma] *)
Definition save_to_chroma (w : World) (data : ChunksData)
    (collection_name : string) : M URLChunker unit :=
  try_except
    (on_manager (get_or_create_collection w collection_name);;
     on_manager (collection_upsert w collection_name
                   (chunks data) (ids data) (metadatas data)))
    (λ e, raise e).

(** The failure dictionary that [process_url] and [process_multiple_urls]
    build. *)
Definition failure (msg u : string) : ProcessResult :=
  {| success := false; url := u; chunks_created := 0; error := Some msg;
     total_characters := None; metadata := None |}.

Definition empty_content_message : string := "Пустой текстовый контент".

(** The first statement of [process_url]: a new splitter is installed
    only when the arguments differ from the defaults. *)
Definition configure_splitter (chunk_size chunk_overlap : Z)
  : M URLChunker unit :=
  if decide (chunk_size ≠ 1000 ∨ chunk_overlap ≠ 200)%Z
  then splitter ← outcome (RecursiveCharacterTextSplitter chunk_size
                             chunk_overlap russian_separators);
       modify (λ s, {| text_splitter := splitter;
                       chroma_manager := chroma_manager s |})
  else mret tt.

(** The [try] block of [process_url]. *)
Definition process_url_body (w : World) (u collection_name : string)
    (chunk_size chunk_overlap : Z) (source_name : option string)
  : M URLChunker ProcessResult :=
  configure_splitter chunk_size chunk_overlap;;
  html_content ← outcome (fetch_content w u);
  let md := extract_metadata w html_content u in
  text_content ← outcome (extract_text w html_content);
  if negb (PyStr.truthy (PyStr.strip text_content))
  then mret (failure empty_content_message u)
  else
    chunks_data ← create_chunks text_content md source_name;
    save_to_chroma w chunks_data collection_name;;
    mret {| success := true; url := u;
            chunks_created := length (chunks chunks_data);
            error := None;
            total_characters := Some (PyStr.len text_content);
            metadata := Some md |}.

(** [URLChunker.process_url] *)
Definition process_url (w : World) (u collection_name : string)
    (chunk_size chunk_overlap : Z) (source_name : option string)
  : M URLChunker ProcessResult :=
  try_except
    (process_url_body w u collection_name chunk_size chunk_overlap source_name)
    (λ e, mret (failure (exc_str e) u)).

(** The loop of [process_multiple_urls] over the remaining URLs, with the
    results appended so far. *)
Fixpoint process_multiple_urls_loop (w : World) (urls : list string)
    (collection_name : string) (chunk_size chunk_overlap : Z)
    (source_name : option string) (results : list ProcessResult)
  : M URLChunker (list ProcessResult) :=
  match urls with
  | [] => mret results
  | u :: rest =>
      results' ←
        try_except
          (result ← process_url w u collection_name chunk_size chunk_overlap
                      source_name;
           mret (results ++ [result]))
          (λ e, mret (results ++ [failure (exc_str e) u]));
      process_multiple_urls_loop w rest collection_name chunk_size chunk_overlap
        source_name results'
  end.

(** [URLChunker.process_multiple_urls] *)
Definition process_multiple_urls (w : World) (urls : list string)
    (collection_name : string) (chunk_size chunk_overlap : Z)
    (source_name : option string) : M URLChunker (list ProcessResult) :=
  process_multiple_urls_loop w urls collection_name chunk_size chunk_overlap
    source_name [].

End Methods.

(** The two sums that [process_multiple_urls] logs before it returns:
    [sum(1 for r in results if r['success'])] and
    [sum(r['chunks_created'] for r in results)]. *)
Definition successful (results : list ProcessResult) : nat :=
  length (filter (λ r, success r = true) results).

Definition total_chunks (results : list ProcessResult) : nat :=
  sum_list (chunks_created <$> results).

(** ** [ChromaDBManager.add_texts] *)

Section AddTexts.
Context {digest : Digest} {lib : SplitterLib}.

(** [metadatas[i].copy() if metadatas and i < len(metadatas) else {}],
    then [source] for a truthy [source_name]. *)
Definition text_metadata (metas : option (list Metadata))
    (source_name : option string) (i : nat) : Metadata :=
  let current : Metadata :=
    match metas with
    | Some l => default ∅ (l !! i)
    | None => ∅
    end in
  match source_name with
  | Some name =>
      if PyStr.truthy name then <["source" := VStr name]> current else current
  | None => current
  end.

(** The inner loop: every chunk of one text is appended with the hash of
    its content as id. *)
Definition add_chunks (meta : Metadata) (split_chunks : list string)
    (acc : ChunksData) : ChunksData :=
  foldl (λ a chunk,
           {| chunks := chunks a ++ [chunk];
              ids := ids a ++ [sha256_hexdigest chunk];
              metadatas := metadatas a ++ [meta] |})
        acc split_chunks.

(** The outer loop over the texts, from position [i] on. *)
Fixpoint add_texts_loop (splitter : TextSplitter)
    (metas : option (list Metadata)) (source_name : option string)
    (i : nat) (texts : list string) (acc : ChunksData)
  : PyExc + ChunksData :=
  match texts with
  | [] => inr acc
  | text :: rest =>
      match split_text splitter text with
      | inl e => inl e
      | inr split_chunks =>
          add_texts_loop splitter metas source_name (S i) rest
            (add_chunks (text_metadata metas source_name i) split_chunks acc)
      end
  end.

Definition add_texts (w : World) (collection_name : string)
    (texts : list string) (metas : option (list Metadata))
    (source_name : option string) (chunk_size chunk_overlap : Z)
  : M Store unit :=
  try_except
    (get_or_create_collection w collection_name;;
     splitter ← outcome (RecursiveCharacterTextSplitter chunk_size chunk_overlap
                           library_separators);
     data ← outcome (add_texts_loop splitter metas source_name 0 texts
                       {| chunks := []; ids := []; metadatas := [] |});
     match chunks data with
     | [] => mret tt
     | _ :: _ =>
         collection_upsert w collection_name
           (chunks data) (ids data) (metadatas data)
     end)
    (λ e, raise e).

End AddTexts.

(** ** Instances used to run the model *)

(** Modelled from the spec: [split_text] of the third-party splitter, as the
    chunker of section 4.1 run with the splitter's configuration. *)
Definition spec_split_text (splitter : TextSplitter) (text : string)
  : PyExc + list string :=
  inr (SeparatorChunker.split text
         {| SeparatorChunker.targetSize := Z.to_nat (splitter_size splitter);
            SeparatorChunker.overlap := Z.to_nat (splitter_overlap splitter);
            SeparatorChunker.separatorPriority :=
              splitter_separators splitter |}).

Definition spec_splitter : SplitterLib :=
  {| split_text := spec_split_text;
     library_separators := [nl +:+ nl; nl; " "; ""] |}.

(** A stand-in digest for concrete runs: the hashed string itself. *)
Definition plain_digest : Digest := λ s, s.

(** A world in which every URL serves the same short page and nothing
    fails. *)
Definition quiet_world : World :=
  {| fetch_content := λ _, inr "A. B. C. D.";
     soup_fields := λ _, Some {| title := "t"; description := "";
                                 keywords := ""; author := "";
                                 language := "en" |};
     now_isoformat := "2024-01-01T00:00:00";
     extract_text := λ html, inr html;
     collection_fault := λ _, None;
     upsert_fault := λ _ _, None;
     upsert_written := λ _ _, [] |}.

(** The same world at a later time. *)
Definition later_world : World :=
  {| fetch_content := fetch_content quiet_world;
     soup_fields := soup_fields quiet_world;
     now_isoformat := "2024-06-30T12:00:00";
     extract_text := extract_text quiet_world;
     collection_fault := collection_fault quiet_world;
     upsert_fault := upsert_fault quiet_world;
     upsert_written := upsert_written quiet_world |}.

(** The same world with the content source down. *)
Definition offline_world : World :=
  {| fetch_content := λ _, inl (ValueError "connection refused");
     soup_fields := soup_fields quiet_world;
     now_isoformat := now_isoformat quiet_world;
     extract_text := extract_text quiet_world;
     collection_fault := collection_fault quiet_world;
     upsert_fault := upsert_fault quiet_world;
     upsert_written := upsert_written quiet_world |}.

(** The same world with pages the HTML parser chokes on. *)
Definition garbled_world : World :=
  {| fetch_content := fetch_content quiet_world;
     soup_fields := λ _, None;
     now_isoformat := now_isoformat quiet_world;
     extract_text := λ _, inl (ValueError "malformed markup");
     collection_fault := collection_fault quiet_world;
     upsert_fault := upsert_fault quiet_world;
     upsert_written := upsert_written quiet_world |}.

(** The same world with a store that refuses writes. *)
Definition readonly_world : World :=
  {| fetch_content := fetch_content quiet_world;
     soup_fields := soup_fields quiet_world;
     now_isoformat := now_isoformat quiet_world;
     extract_text := extract_text quiet_world;
     collection_fault := collection_fault quiet_world;
     upsert_fault := λ _ _, Some (ValueError "database is read-only");
     upsert_written := upsert_written quiet_world |}.

(** The same world with a store whose upsert raises after it has written
    the first record of the batch. *)
Definition flaky_world : World :=
  {| fetch_content := fetch_content quiet_world;
     soup_fields := soup_fields quiet_world;
     now_isoformat := now_isoformat quiet_world;
     extract_text := extract_text quiet_world;
     collection_fault := collection_fault quiet_world;
     upsert_fault := λ _ _, Some (ValueError "connection lost");
     upsert_written := λ _ _, [0] |}.


(** A world whose pages hold nothing but spaces. *)
Definition blank_world : World :=
  {| fetch_content := λ _, inr "   ";
     soup_fields := soup_fields quiet_world;
     now_isoformat := now_isoformat quiet_world;
     extract_text := extract_text quiet_world;
     collection_fault := collection_fault quiet_world;
     upsert_fault := upsert_fault quiet_world;
     upsert_written := upsert_written quiet_world |}.

(** A world with two pages, at [http://h/v_1] and at any other URL. *)
Definition two_page_world : World :=
  {| fetch_content := λ u, if decide (u = "http://h/v_1")
                           then inr "abc" else inr "xx 0_abc";
     soup_fields := soup_fields quiet_world;
     now_isoformat := now_isoformat quiet_world;
     extract_text := extract_text quiet_world;
     collection_fault := collection_fault quiet_world;
     upsert_fault := upsert_fault quiet_world;
     upsert_written := upsert_written quiet_world |}.

(** A splitter library whose [split_text] raises. *)
Definition refusing_splitter : SplitterLib :=
  {| split_text := λ _ _, inl (ValueError "cannot split");
     library_separators := library_separators (SplitterLib := spec_splitter) |}.

(** A pipeline object on which five-character chunks with an overlap of two
    have been installed. *)
Definition small_chunker : URLChunker :=
  {| text_splitter := {| splitter_size := 5; splitter_overlap := 2;
                         splitter_separators := russian_separators |};
     chroma_manager := ∅ |}.

(** A world that serves [page] at every URL and whose [extract_text] is
    the code's own, over a parser that finds the page to be plain text. *)
Definition plain_text_world (page : string) : World :=
  {| fetch_content := λ _, inr page;
     soup_fields := soup_fields quiet_world;
     now_isoformat := now_isoformat quiet_world;
     extract_text := extract_text_with inr;
     collection_fault := collection_fault quiet_world;
     upsert_fault := upsert_fault quiet_world;
     upsert_written := upsert_written quiet_world |}.

(** ** Predicates of the statements *)


(** Every character of [s] satisfies [P]. *)
Fixpoint every_char (P : ascii → Prop) (s : string) : Prop :=
  match s with
  | "" => True
  | String c rest => P c ∧ every_char P rest
  end.

(** [s], read after [n] characters of the class in a row, never has more
    than [k] characters of the class in a row. *)
Fixpoint run_bound (cls : ascii → bool) (k n : nat) (s : string) : Prop :=
  match s with
  | "" => True
  | String c rest =>
      if cls c then S n ≤ k ∧ run_bound cls k (S n) rest
      else run_bound cls k 0 rest
  end.

(** [n] copies of the character [x]. *)
Fixpoint rep (n : nat) (x : ascii) : string :=
  match n with
  | 0 => ""
  | S m => String x (rep m x)
  end.

(** No two chunks of the document at [u] have the same id unless the
    strings hashed for them are the same. *)
Definition collision_free `{Digest} (u : PyVal) (text_chunks : list string)
  : Prop :=
  ∀ i j c d,
    text_chunks !! i = Some c → text_chunks !! j = Some d →
    chunk_id u i c = chunk_id u j d → chunk_key u i c = chunk_key u j d.

(** * Facts *)

(** ** Strings *)

Module PyStrFacts.
Import PyStr.





Lemma lstrip_empty_iff s :
  lstrip s = "" ↔ ∀ c, c ∈ String.list_ascii_of_string s → isspace c = true.
Proof.
  induction s as [|a s IH]; simpl.
  - split; [|done]. intros _ c Hc. by apply elem_of_nil in Hc.
  - destruct (isspace a) eqn:Ha.
    + rewrite IH. split.
      * intros H c [->|Hc]%elem_of_cons; auto.
      * intros H c Hc. apply H. by right.
    + split; [done|]. intros H. specialize (H a (list_elem_of_here _ _)).
      congruence.
Qed.

Lemma lstrip_head s a t : lstrip s = String a t → isspace a = false.
Proof.
  induction s as [|b s IH]; simpl; [done|].
  destruct (isspace b) eqn:Hb; [done|]. by intros [= <- _].
Qed.

Lemma chars_rev_app s t :
  String.list_ascii_of_string (String.rev_app s t)
  = reverse (String.list_ascii_of_string s) ++ String.list_ascii_of_string t.
Proof.
  revert t. induction s as [|a s IH]; intros t; simpl; [done|].
  rewrite IH, reverse_cons, <- app_assoc. done.
Qed.

Lemma rev_empty s : String.rev s = "" → s = "".
Proof.
  intros Hs. apply (f_equal String.list_ascii_of_string) in Hs.
  unfold String.rev in Hs. rewrite chars_rev_app, app_nil_r in Hs.
  destruct s as [|a s]; [done|]. simpl in Hs.
  rewrite reverse_cons in Hs. by destruct (reverse _).
Qed.

(** [not s.strip()] holds exactly when every character is whitespace. *)
Lemma strip_blank_iff s :
  truthy (strip s) = false ↔
  ∀ c, c ∈ String.list_ascii_of_string s → isspace c = true.
Proof.
  rewrite <- lstrip_empty_iff. unfold strip, rstrip. split.
  - intros Hs. destruct (lstrip s) as [|a t] eqn:E; [done|].
    apply lstrip_head in E.
    assert (String.rev (lstrip (String.rev (String a t))) = "") as Hr
      by (by destruct (String.rev _)).
    apply rev_empty in Hr.
    pose proof (proj1 (lstrip_empty_iff _) Hr a) as Ha.
    rewrite Ha in E; [done|].
    unfold String.rev. rewrite chars_rev_app, app_nil_r.
    apply elem_of_reverse. simpl. left.
  - intros ->. done.
Qed.

End PyStrFacts.

(** ** The separator chunker *)

Module ChunkerFacts.
Import PyStr PyStrFacts SeparatorChunker.







(** A piece that fills the buffer alone leaves no room for a seed: with
    [targetSize = 5] and [overlap = 2] the piece ["def. "] opens its
    chunk, and the last chunk starts with the two-character tail of that
    one. *)
Example split_seed_cut :
  split "abc. def. ghi"
    {| targetSize := 5; overlap := 2; separatorPriority := [". "; " "; ""] |}
  = ["abc. "; "def. "; ". ghi"].
Proof. by vm_compute. Qed.

(** The example of section 8 of the specification. *)
Example split_spec_example :
  split "A. B. C. D."
    {| targetSize := 5; overlap := 2; separatorPriority := [". "; " "; ""] |}
  = ["A. "; ". B. "; ". C. "; ". D."].
Proof. by vm_compute. Qed.

(** Without a separator in the text the characters are cut in windows of
    [targetSize] that start every [targetSize - overlap] characters. *)
Example split_hard_cut :
  split "abcdefghijklmnop"
    {| targetSize := 5; overlap := 2; separatorPriority := [". "; " "; ""] |}
  = ["abcde"; "defgh"; "ghijk"; "jklmn"; "mnop"].
Proof. by vm_compute. Qed.

End ChunkerFacts.

(** ** The store *)

Section StoreFacts.

(** The ids present after an upsert: those present before and those
    written. *)
Lemma dom_foldl_insert (l : list (string * (string * Metadata)))
    (c : Collection) :
  dom (foldl (λ acc r, <[r.1 := r.2]> acc) c l)
  = dom c ∪ list_to_set (l.*1).
Proof.
  revert c. induction l as [|r l IH]; intros c; simpl.
  - set_solver.
  - rewrite IH, dom_insert_L. set_solver.
Qed.

Lemma dom_upsert docs ids metas (c : Collection) :
  length docs = length ids → length metas = length ids →
  dom (upsert docs ids metas c) = dom c ∪ list_to_set ids.
Proof.
  intros Hd Hm. unfold upsert. rewrite dom_foldl_insert.
  rewrite fst_zip; [done|]. rewrite length_zip_with. lia.
Qed.

(** An upsert removes no id, and adds none but those it is given. *)
Lemma dom_upsert_subseteq docs ids metas (c : Collection) :
  dom c ⊆ dom (upsert docs ids metas c).
Proof. unfold upsert. rewrite dom_foldl_insert. set_solver. Qed.

Lemma dom_upsert_within docs ids metas (c : Collection) :
  dom (upsert docs ids metas c) ⊆ dom c ∪ list_to_set ids.
Proof.
  unfold upsert. rewrite dom_foldl_insert.
  apply union_mono_l. intros id.
  rewrite !elem_of_list_to_set, list_elem_of_fmap.
  intros ([id' r] & -> & Hin). simpl. by eapply elem_of_zip_l.
Qed.

Lemma elem_of_at_positions {A} (positions : list nat) (l : list A) x :
  x ∈ at_positions positions l → x ∈ l.
Proof.
  unfold at_positions. rewrite list_elem_of_omap.
  intros (i & _ & Hi). by eapply list_elem_of_lookup_2.
Qed.

(** The same for an upsert that raised after partial writes. *)
Lemma dom_upsert_partial w name docs ids metas (c : Collection) :
  dom c ⊆ dom (upsert_partial w name docs ids metas c)
  ∧ dom (upsert_partial w name docs ids metas c)
    ⊆ dom c ∪ list_to_set ids.
Proof.
  unfold upsert_partial. split; [apply dom_upsert_subseteq|].
  etrans; [apply dom_upsert_within|]. apply union_mono_l. intros id.
  rewrite !elem_of_list_to_set. apply elem_of_at_positions.
Qed.

(** Nothing written, nothing changed. *)
Lemma upsert_partial_nothing w name docs ids metas (c : Collection) :
  upsert_written w name ids = [] →
  upsert_partial w name docs ids metas c = c.
Proof. unfold upsert_partial. by intros ->. Qed.



Lemma lookup_foldl_insert_notin (l : list (string * (string * Metadata)))
    (c : Collection) k :
  k ∉ l.*1 → foldl (λ acc r, <[r.1 := r.2]> acc) c l !! k = c !! k.
Proof.
  revert c. induction l as [|r l IH]; intros c Hk; simpl; [done|].
  rewrite fmap_cons, not_elem_of_cons in Hk. destruct Hk as [Hr Hl].
  rewrite IH by done. by rewrite lookup_insert_ne.
Qed.

(** The record stored under an id is the last one written with it. *)
Lemma lookup_foldl_insert_last (l1 l2 : list (string * (string * Metadata)))
    (c : Collection) k v :
  k ∉ l2.*1 →
  foldl (λ acc r, <[r.1 := r.2]> acc) c (l1 ++ (k, v) :: l2) !! k = Some v.
Proof.
  intros Hk. rewrite foldl_app. simpl.
  rewrite lookup_foldl_insert_notin by done. apply lookup_insert_eq.
Qed.

Lemma size_union_le (X Y : gset string) : size (X ∪ Y) ≤ size X + size Y.
Proof.
  rewrite size_union_alt. apply Nat.add_le_mono_l, subseteq_size. set_solver.
Qed.


(** An upserted id maps to the record of its last position in the batch. *)
Lemma upsert_last_wins docs ids metas (c : Collection) k id doc m :
  ids !! k = Some id → docs !! k = Some doc → metas !! k = Some m →
  (∀ j, k < j → ids !! j ≠ Some id) →
  upsert docs ids metas c !! id = Some (doc, m).
Proof.
  intros Hid Hdoc Hm Hlast. unfold upsert.
  assert (zip ids (zip docs metas) !! k = Some (id, (doc, m))) as Hk.
  { apply lookup_zip_with_Some. eexists _, _. split_and!; [done..|].
    apply lookup_zip_with_Some. eauto. }
  rewrite <- (take_drop_middle _ _ _ Hk).
  apply lookup_foldl_insert_last.
  intros ([id' v] & Heq & [j Hj]%list_elem_of_lookup)%list_elem_of_fmap.
  simpl in Heq. subst id'. rewrite lookup_drop in Hj.
  apply lookup_zip_with_Some in Hj as (? & ? & [= <- _] & Hj & _).
  apply (Hlast (S k + j)); [lia|done].
Qed.


End StoreFacts.

(** ** [URLChunker] *)

Section PipelineFacts.
Context {digest : Digest} {lib : SplitterLib}.

Ltac run :=
  unfold try_except, mbind, M_bind, mret, M_ret, outcome, raise, gets,
    modify, on_manager in *; simpl in *.

(** With a [url] key the loop never raises, and position [k] of each list
    is built from chunk [k] alone. *)
Lemma create_chunks_loop_url md source_name u :
  md !! "url" = Some u →
  ∀ text_chunks i acc,
    create_chunks_loop md source_name i text_chunks acc
    = inr {| chunks := chunks acc ++ text_chunks;
             ids := ids acc ++ imap (λ j, chunk_id u (i + j)) text_chunks;
             metadatas :=
               metadatas acc
                 ++ imap (λ j, chunk_metadata md source_name (i + j))
                      text_chunks |}.
Proof.
  intros Hu. induction text_chunks as [|chunk rest IH]; intros i acc; simpl.
  - rewrite !app_nil_r. by destruct acc.
  - rewrite Hu, IH. simpl. rewrite <- !app_assoc, Nat.add_0_r. simpl.
    do 2 f_equal; do 2 f_equal; apply imap_ext; intros j c _; simpl;
      by rewrite Nat.add_succ_r.
Qed.

(** [create_chunks] reads the installed splitter and leaves the object
    unchanged. *)
Lemma create_chunks_run text md source_name s :
  create_chunks text md source_name s
  = (match split_text (text_splitter s) text with
     | inl e => inl e
     | inr text_chunks =>
         create_chunks_loop md source_name 0 text_chunks
           {| chunks := []; ids := []; metadatas := [] |}
     end, s).
Proof.
  unfold create_chunks. run.
  destruct (split_text _ _) as [e|cs]; [done|].
  by destruct (create_chunks_loop _ _ _ _ _).
Qed.

Lemma create_chunks_ok text md source_name s data s' u :
  md !! "url" = Some u →
  create_chunks text md source_name s = (inr data, s') →
  s' = s ∧ split_text (text_splitter s) text = inr (chunks data)
  ∧ ids data = imap (chunk_id u) (chunks data)
  ∧ metadatas data = imap (chunk_metadata md source_name) (chunks data).
Proof.
  intros Hu. rewrite create_chunks_run.
  destruct (split_text _ _) as [e|cs]; [done|].
  rewrite (create_chunks_loop_url _ _ _ Hu). simpl.
  intros [= <- <-]. simpl. done.
Qed.

Lemma save_to_chroma_run w data collection_name s :
  save_to_chroma w data collection_name s
  = match collection_fault w collection_name with
    | Some e => (inl e, s)
    | None =>
        let st := client_get_or_create collection_name (chroma_manager s) in
        match upsert_fault w collection_name (ids data) with
        | Some e =>
            (inl e,
             {| text_splitter := text_splitter s;
                chroma_manager :=
                  <[collection_name :=
                      upsert_partial w collection_name (chunks data)
                        (ids data) (metadatas data)
                        (st !!! collection_name)]> st |})
        | None =>
            (inr tt,
             {| text_splitter := text_splitter s;
                chroma_manager :=
                  <[collection_name :=
                      upsert (chunks data) (ids data) (metadatas data)
                        (st !!! collection_name)]> st |})
        end
    end.
Proof.
  unfold save_to_chroma, get_or_create_collection, collection_upsert. run.
  destruct (collection_fault _ _); simpl; [by destruct s|].
  by destruct (upsert_fault _ _ _).
Qed.

(** The reconfiguration writes [self.text_splitter] and nothing else. *)
Lemma configure_splitter_store chunk_size chunk_overlap s r s1 :
  configure_splitter chunk_size chunk_overlap s = (r, s1) →
  chroma_manager s1 = chroma_manager s.
Proof.
  unfold configure_splitter. run.
  destruct (decide _); [|by intros [= _ <-]].
  destruct (RecursiveCharacterTextSplitter _ _ _); by intros [= _ <-].
Qed.

(** Running it again with the same arguments changes nothing. *)
Lemma configure_splitter_again chunk_size chunk_overlap s s1 :
  configure_splitter chunk_size chunk_overlap s = (inr tt, s1) →
  configure_splitter chunk_size chunk_overlap s1 = (inr tt, s1).
Proof.
  unfold configure_splitter. run.
  destruct (decide _); [|by intros [= <-]].
  destruct (RecursiveCharacterTextSplitter _ _ _); [done|].
  by intros [= <-].
Qed.

(** [process_url], one collaborator call at a time. *)
Lemma process_url_run w u collection_name chunk_size chunk_overlap source_name s :
  process_url w u collection_name chunk_size chunk_overlap source_name s
  = match configure_splitter chunk_size chunk_overlap s with
    | (inl e, s1) => (inr (failure (exc_str e) u), s1)
    | (inr _, s1) =>
      match fetch_content w u with
      | inl e => (inr (failure (exc_str e) u), s1)
      | inr html =>
        match extract_text w html with
        | inl e => (inr (failure (exc_str e) u), s1)
        | inr text =>
          if negb (PyStr.truthy (PyStr.strip text))
          then (inr (failure empty_content_message u), s1)
          else
            match create_chunks text (extract_metadata w html u)
                    source_name s1 with
            | (inl e, s2) => (inr (failure (exc_str e) u), s2)
            | (inr data, s2) =>
              match save_to_chroma w data collection_name s2 with
              | (inl e, s3) => (inr (failure (exc_str e) u), s3)
              | (inr _, s3) =>
                  (inr {| success := true; url := u;
                          chunks_created := length (chunks data);
                          error := None;
                          total_characters := Some (PyStr.len text);
                          metadata := Some (extract_metadata w html u) |},
                   s3)
              end
            end
        end
      end
    end.
Proof.
  unfold process_url, process_url_body.
  unfold try_except at 1. unfold mbind, M_bind, mret, M_ret, outcome.
  destruct (configure_splitter chunk_size chunk_overlap s) as [[e|[]] s1]; [done|].
  destruct (fetch_content w u) as [e|html]; [done|].
  destruct (extract_text w html) as [e|text]; [done|].
  destruct (negb _); [done|].
  destruct (create_chunks _ _ _ s1) as [[e|data] s2]; [done|].
  by destruct (save_to_chroma _ _ _ s2) as [[e|[]] s3].
Qed.

(** No exception leaves [process_url]. *)
Lemma process_url_returns w u collection_name chunk_size chunk_overlap source_name s :
  ∃ r s', process_url w u collection_name chunk_size chunk_overlap source_name s
          = (inr r, s')
          ∧ url r = u
          ∧ (success r = false → chunks_created r = 0 ∧ is_Some (error r)).
Proof.
  rewrite process_url_run.
  repeat match goal with
         | |- context [match ?x with _ => _ end] => destruct x
         | |- context [if ?x then _ else _] => destruct x
         end;
    (eexists _, _; split; [reflexivity|]; simpl; split; [done|];
     intros; by eauto).
Qed.

(** C5.  A policy with [overlap >= targetSize] or [targetSize <= 0] is
    rejected by the constructor with an [InvalidPolicyError]; [process_url]
    called with such values reports it as its failure result and leaves the
    object as it was: the installed splitter, the collections and their
    records are untouched, and the content source is not consulted. *)
Theorem invalid_policy_rejected w u collection_name chunk_size chunk_overlap
    source_name s :
  (chunk_size ≤ 0 ∨ chunk_size ≤ chunk_overlap)%Z →
  (∀ seps, ∃ msg, RecursiveCharacterTextSplitter chunk_size chunk_overlap seps
                  = inl (InvalidPolicyError msg))
  ∧ process_url w u collection_name chunk_size chunk_overlap source_name s
    = (inr (failure "invalid chunking policy" u), s).
Proof.
  intros Hbad. split.
  - intros seps. unfold RecursiveCharacterTextSplitter.
    rewrite decide_True by done. eauto.
  - rewrite process_url_run. unfold configure_splitter. run.
    rewrite decide_True by lia.
    unfold RecursiveCharacterTextSplitter. by rewrite decide_True by done.
Qed.

(** C6.  [process_url] never raises: it always returns a result
    dictionary, for the URL it was given.  Whichever step raises
    (installing the splitter, fetching, extracting the text, chunking,
    writing to the store), the result has [success = False],
    [chunks_created = 0] and, as [error], the text of that exception; and
    every failure result has [chunks_created = 0] and an error message. *)
Theorem failures_are_structured w u collection_name chunk_size chunk_overlap
    source_name s :
  ∃ r s',
    process_url w u collection_name chunk_size chunk_overlap source_name s
      = (inr r, s')
    ∧ url r = u
    ∧ (success r = false → chunks_created r = 0 ∧ is_Some (error r))
    ∧ let reports (e : PyExc) :=
        success r = false ∧ chunks_created r = 0
        ∧ error r = Some (exc_str e) in
      (∀ e s1, configure_splitter chunk_size chunk_overlap s = (inl e, s1) →
         reports e)
      ∧ (∀ s1, configure_splitter chunk_size chunk_overlap s = (inr tt, s1) →
           (∀ e, fetch_content w u = inl e → reports e)
           ∧ (∀ html, fetch_content w u = inr html →
                (∀ e, extract_text w html = inl e → reports e)
                ∧ (∀ text, extract_text w html = inr text →
                     PyStr.truthy (PyStr.strip text) = true →
                     let md := extract_metadata w html u in
                     (∀ e s2,
                        create_chunks text md source_name s1 = (inl e, s2) →
                        reports e)
                     ∧ (∀ data s2 e s3,
                          create_chunks text md source_name s1
                            = (inr data, s2) →
                          save_to_chroma w data collection_name s2
                            = (inl e, s3) →
                          reports e)))).
Proof.
  destruct (process_url_returns w u collection_name chunk_size chunk_overlap
              source_name s) as (r & s' & Hrun & Hurl & Hfail).
  exists r, s'. do 3 (split; [done|]).
  rewrite process_url_run in Hrun. simpl. split.
  - intros e s1 Hc. rewrite Hc in Hrun. by injection Hrun as <- _.
  - intros s1 Hc. rewrite Hc in Hrun. split.
    { intros e Hf. rewrite Hf in Hrun. by injection Hrun as <- _. }
    intros html Hf. rewrite Hf in Hrun. split.
    { intros e Ht. rewrite Ht in Hrun. by injection Hrun as <- _. }
    intros text Ht Hfull. rewrite Ht, Hfull in Hrun. simpl in Hrun. split.
    + intros e s2 Hk. rewrite Hk in Hrun. by injection Hrun as <- _.
    + intros data s2 e s3 Hk Hs. rewrite Hk, Hs in Hrun.
      by injection Hrun as <- _.
Qed.

(** C10.  When the extracted text is empty or consists of whitespace only,
    [process_url] returns a failure result with [chunks_created = 0] and
    the collections of the store are exactly those before the call: no
    collection was created and nothing was upserted. *)
Theorem blank_text_leaves_store w u collection_name chunk_size chunk_overlap
    source_name s html text :
  fetch_content w u = inr html →
  extract_text w html = inr text →
  (∀ c, c ∈ String.list_ascii_of_string text → PyStr.isspace c = true) →
  ∃ r s',
    process_url w u collection_name chunk_size chunk_overlap source_name s = (inr r, s')
    ∧ success r = false ∧ chunks_created r = 0
    ∧ chroma_manager s' = chroma_manager s
    ∧ (∀ s1, configure_splitter chunk_size chunk_overlap s = (inr tt, s1) →
         r = failure empty_content_message u ∧ s' = s1).
Proof.
  intros Hfetch Htext Hblank%PyStrFacts.strip_blank_iff.
  rewrite process_url_run, Hfetch, Htext, Hblank. simpl.
  destruct (configure_splitter chunk_size chunk_overlap s) as [[e|[]] s1] eqn:Hc;
    eexists _, _; (split; [reflexivity|]); simpl;
    (split_and!; [done|done|by eapply configure_splitter_store|]).
  - by intros s1'.
  - by intros s1' [= <-].
Qed.

(** *** The batch *)

(** One turn of the loop: the result of [process_url] is appended and the
    loop goes on from the state that call left. *)
Lemma batch_loop_cons w u rest collection_name chunk_size chunk_overlap source_name
    acc s r s1 :
  process_url w u collection_name chunk_size chunk_overlap source_name s = (inr r, s1) →
  process_multiple_urls_loop w (u :: rest) collection_name chunk_size chunk_overlap
    source_name acc s
  = process_multiple_urls_loop w rest collection_name chunk_size chunk_overlap
      source_name (acc ++ [r]) s1.
Proof. intros Hr. simpl. run. by rewrite Hr. Qed.

Lemma batch_loop_total w collection_name chunk_size chunk_overlap source_name urls :
  ∀ s, ∃ rs s',
    (∀ acc, process_multiple_urls_loop w urls collection_name chunk_size chunk_overlap
              source_name acc s = (inr (acc ++ rs), s'))
    ∧ url <$> rs = urls.
Proof.
  induction urls as [|u rest IH]; intros s.
  - exists [], s. split; [|done]. intros acc. by rewrite app_nil_r.
  - destruct (process_url_returns w u collection_name chunk_size chunk_overlap
                source_name s) as (r & s1 & Hr & Hu & _).
    destruct (IH s1) as (rs & s' & Hloop & Hurls).
    exists (r :: rs), s'. split.
    + intros acc. rewrite (batch_loop_cons _ _ _ _ _ _ _ _ _ _ _ Hr), Hloop.
      by rewrite <- app_assoc.
    + by rewrite fmap_cons, Hu, Hurls.
Qed.

Lemma batch_app w collection_name chunk_size chunk_overlap source_name before after :
  ∀ s rs1 s1 rs2 s2,
    process_multiple_urls w before collection_name chunk_size chunk_overlap
      source_name s = (inr rs1, s1) →
    process_multiple_urls w after collection_name chunk_size chunk_overlap
      source_name s1 = (inr rs2, s2) →
    process_multiple_urls w (before ++ after) collection_name chunk_size chunk_overlap
      source_name s = (inr (rs1 ++ rs2), s2).
Proof.
  unfold process_multiple_urls.
  induction before as [|u rest IH]; intros s rs1 s1 rs2 s2 H1 H2.
  - simpl in *. run. by simplify_eq.
  - destruct (process_url_returns w u collection_name chunk_size chunk_overlap
                source_name s) as (r & s' & Hr & _).
    rewrite <- app_comm_cons.
    rewrite (batch_loop_cons _ _ _ _ _ _ _ _ _ _ _ Hr).
    rewrite (batch_loop_cons _ _ _ _ _ _ _ _ _ _ _ Hr) in H1.
    destruct (batch_loop_total w collection_name chunk_size chunk_overlap source_name
                rest s') as (rs & s'' & Hrest & _).
    rewrite Hrest in H1. injection H1 as <- <-.
    destruct (batch_loop_total w collection_name chunk_size chunk_overlap source_name
                (rest ++ after) s') as (rs' & s3 & Hall & _).
    rewrite Hall. specialize (IH s' rs s'' rs2 s2).
    rewrite (Hrest []), (Hall []) in IH. simpl in IH.
    specialize (IH eq_refl H2). injection IH as -> ->.
    done.
Qed.

(** C7.  [process_multiple_urls] returns one result per input URL, in the
    order of the inputs; and whatever the result of a document is, success
    or failure, the documents after it are processed, from the state that
    document left behind, and their results follow its own. *)
Theorem batch_keeps_order_and_goes_on w collection_name chunk_size chunk_overlap
    source_name s :
  let batch urls := process_multiple_urls w urls collection_name chunk_size
                      chunk_overlap source_name in
  (∀ urls, ∃ results s',
      batch urls s = (inr results, s')
      ∧ length results = length urls
      ∧ url <$> results = urls)
  ∧ (∀ before u after, ∃ rs1 s1 r s2 rs2 s3,
        batch before s = (inr rs1, s1)
        ∧ process_url w u collection_name chunk_size chunk_overlap source_name s1
          = (inr r, s2)
        ∧ batch after s2 = (inr rs2, s3)
        ∧ batch (before ++ u :: after) s = (inr (rs1 ++ r :: rs2), s3)).
Proof.
  intros batch. subst batch. split.
  - intros urls.
    destruct (batch_loop_total w collection_name chunk_size chunk_overlap source_name
                urls s) as (rs & s' & Hloop & Hurls).
    exists rs, s'. unfold process_multiple_urls. rewrite Hloop.
    split_and!; [done| |done].
    by rewrite <- Hurls, length_fmap.
  - intros before u after.
    destruct (batch_loop_total w collection_name chunk_size chunk_overlap source_name
                before s) as (rs1 & s1 & H1 & _).
    destruct (process_url_returns w u collection_name chunk_size chunk_overlap
                source_name s1) as (r & s2 & Hr & _).
    destruct (batch_loop_total w collection_name chunk_size chunk_overlap source_name
                after s2) as (rs2 & s3 & H2 & _).
    exists rs1, s1, r, s2, rs2, s3.
    assert (process_multiple_urls w (u :: after) collection_name chunk_size
              chunk_overlap source_name s1 = (inr (r :: rs2), s3)) as Hcons.
    { unfold process_multiple_urls.
      by rewrite (batch_loop_cons _ _ _ _ _ _ _ _ _ _ _ Hr), H2. }
    split_and!; [apply (H1 [])|done|apply (H2 [])|].
    eapply batch_app; [apply (H1 [])|done].
Qed.

(** *** Content addressing *)

Lemma extract_metadata_url w html u :
  extract_metadata w html u !! "url" = Some (VStr u).
Proof.
  unfold extract_metadata. destruct (soup_fields w html);
    by rewrite !lookup_insert_ne, lookup_singleton_eq by done.
Qed.

(** C8.  The id that [create_chunks] gives to the chunk at position [i] is
    [chunk_id] of the document's URL, [i] and the chunk text, and of
    nothing else: two calls, whatever the pipeline object they run on, the
    rest of the metadata (such as the processing date) or the source name,
    give the same id to the same triple. *)
Theorem chunk_id_deterministic text1 text2 md1 md2 source1 source2
    s1 s2 d1 d2 s1' s2' u i chunk :
  md1 !! "url" = Some u →
  md2 !! "url" = Some u →
  create_chunks text1 md1 source1 s1 = (inr d1, s1') →
  create_chunks text2 md2 source2 s2 = (inr d2, s2') →
  chunks d1 !! i = Some chunk →
  chunks d2 !! i = Some chunk →
  ids d1 !! i = Some (chunk_id u i chunk)
  ∧ ids d2 !! i = ids d1 !! i.
Proof.
  intros Hu1 Hu2 (_ & _ & Hid1 & _)%(create_chunks_ok _ _ _ _ _ _ _ Hu1)
    (_ & _ & Hid2 & _)%(create_chunks_ok _ _ _ _ _ _ _ Hu2) Hc1 Hc2.
  rewrite Hid1, Hid2, !list_lookup_imap, Hc1, Hc2. done.
Qed.

(** *** Re-ingestion *)

Lemma create_chunks_split text md source_name s u text_chunks :
  md !! "url" = Some u →
  split_text (text_splitter s) text = inr text_chunks →
  create_chunks text md source_name s
  = (inr {| chunks := text_chunks;
            ids := imap (chunk_id u) text_chunks;
            metadatas := imap (chunk_metadata md source_name) text_chunks |},
     s).
Proof.
  intros Hu Hs. rewrite create_chunks_run, Hs.
  by rewrite (create_chunks_loop_url _ _ _ Hu).
Qed.



End PipelineFacts.

(** ** [ChromaDBManager.add_texts] *)

Section AddTextsFacts.
Context {digest : Digest} {lib : SplitterLib}.

Ltac run :=
  unfold try_except, mbind, M_bind, mret, M_ret, outcome, raise, gets,
    modify, on_manager in *; simpl in *.

Lemma add_chunks_spec meta split_chunks :
  ∀ acc,
    add_chunks meta split_chunks acc
    = {| chunks := chunks acc ++ split_chunks;
         ids := ids acc ++ (sha256_hexdigest <$> split_chunks);
         metadatas := metadatas acc ++ replicate (length split_chunks) meta |}.
Proof.
  unfold add_chunks.
  induction split_chunks as [|chunk rest IH]; intros acc; simpl.
  - rewrite !app_nil_r. by destruct acc.
  - rewrite IH. simpl. by rewrite <- !app_assoc.
Qed.


Lemma client_get_or_create_lookup name (st : Store) :
  client_get_or_create name st !! name = Some (default ∅ (st !! name)).
Proof.
  unfold client_get_or_create.
  destruct (st !! name) eqn:E; simpl; [done|]. apply lookup_insert_eq.
Qed.

(** [add_texts], one collaborator call at a time.  The collection is
    obtained, and created when missing, before the splitter is built. *)
Lemma add_texts_run w collection_name texts metas source_name chunk_size
    chunk_overlap (st : Store) :
  add_texts w collection_name texts metas source_name chunk_size
    chunk_overlap st
  = match collection_fault w collection_name with
    | Some e => (inl e, st)
    | None =>
      let st1 := client_get_or_create collection_name st in
      match RecursiveCharacterTextSplitter chunk_size chunk_overlap
              library_separators with
      | inl e => (inl e, st1)
      | inr splitter =>
        match add_texts_loop splitter metas source_name 0 texts
                {| chunks := []; ids := []; metadatas := [] |} with
        | inl e => (inl e, st1)
        | inr data =>
          match chunks data with
          | [] => (inr tt, st1)
          | _ :: _ =>
            match upsert_fault w collection_name (ids data) with
            | Some e =>
                (inl e,
                 <[collection_name :=
                     upsert_partial w collection_name (chunks data)
                       (ids data) (metadatas data)
                       (st1 !!! collection_name)]> st1)
            | None =>
                (inr tt,
                 <[collection_name :=
                     upsert (chunks data) (ids data) (metadatas data)
                       (st1 !!! collection_name)]> st1)
            end
          end
        end
      end
    end.
Proof.
  unfold add_texts, get_or_create_collection, collection_upsert. run.
  destruct (collection_fault w collection_name); [done|]. simpl.
  destruct (RecursiveCharacterTextSplitter _ _ _) as [e|splitter]; [done|].
  destruct (add_texts_loop _ _ _ _ _ _) as [e|data]; [done|].
  destruct (chunks data); [done|].
  by destruct (upsert_fault _ _ _).
Qed.

(** Unlike [process_url], [add_texts] builds its splitter after the
    collection was obtained: a rejected policy leaves a newly created
    collection behind. *)
Remark add_texts_rejects_after_creating w collection_name texts metas
    source_name chunk_size chunk_overlap (st : Store) :
  (chunk_size ≤ 0 ∨ chunk_size ≤ chunk_overlap)%Z →
  collection_fault w collection_name = None →
  ∃ e, add_texts w collection_name texts metas source_name chunk_size
         chunk_overlap st
       = (inl e, client_get_or_create collection_name st).
Proof.
  intros Hbad Hfault. rewrite add_texts_run, Hfault. simpl.
  unfold RecursiveCharacterTextSplitter. rewrite decide_True by done. eauto.
Qed.


End AddTextsFacts.

(** ** The hashed string *)

Section KeyFacts.

Lemma pretty_N_char_digit x : pretty_N_char x ≠ "_"%char.
Proof.
  unfold pretty_N_char.
  repeat match goal with
         | |- context [match ?y with _ => _ end] => destruct y
         end;
    done.
Qed.

Lemma app_assoc_string (a b c : string) : (a +:+ b) +:+ c = a +:+ (b +:+ c).
Proof. induction a as [|x a IH]; [done|]. exact (f_equal (String x) IH). Qed.

Lemma chars_app (a b : string) :
  String.list_ascii_of_string (a +:+ b)
  = String.list_ascii_of_string a ++ String.list_ascii_of_string b.
Proof.
  induction a as [|x a IH]; [done|]. exact (f_equal (cons x) IH).
Qed.

Lemma pretty_N_go_digits x :
  ∀ s, ∃ d, pretty_N_go x s = d +:+ s
            ∧ "_"%char ∉ String.list_ascii_of_string d.
Proof.
  induction (N.lt_wf_0 x) as [x _ IH]. intros s.
  destruct (decide (x = 0)%N) as [->|Hx].
  - exists "". rewrite pretty_N_go_0. split; [done|]. apply not_elem_of_nil.
  - rewrite pretty_N_go_step by lia.
    destruct (IH (x `div` 10)%N) with
      (s := String (pretty_N_char (x `mod` 10)) s) as (d & -> & Hd).
    { apply N.div_lt; lia. }
    exists (d +:+ String (pretty_N_char (x `mod` 10)) ""). split.
    + by rewrite app_assoc_string.
    + rewrite chars_app. cbn. rewrite elem_of_app, list_elem_of_singleton.
      intros [?|?]; [done|]. by eapply pretty_N_char_digit.
Qed.

Lemma pretty_nat_digits (n : nat) :
  "_"%char ∉ String.list_ascii_of_string (pretty n).
Proof.
  unfold pretty, pretty_nat, pretty, pretty_N.
  case_decide.
  - cbn. rewrite list_elem_of_singleton. done.
  - destruct (pretty_N_go_digits (N.of_nat n) "") as (d & -> & Hd).
    by rewrite chars_app, app_nil_r.
Qed.

Lemma cut_at_underscore (a b c d : string) :
  "_"%char ∉ String.list_ascii_of_string a →
  "_"%char ∉ String.list_ascii_of_string b →
  a +:+ String "_" c = b +:+ String "_" d → a = b ∧ c = d.
Proof.
  revert b. induction a as [|x a IH]; intros [|y b] Ha Hb; cbn.
  - by intros [= ->].
  - intros [= <- _]. destruct Hb. cbn. left.
  - intros [= -> _]. destruct Ha. cbn. left.
  - intros [= -> Heq]. destruct (IH b) as [-> ->]; [| |done|done].
    + cbn in Ha. by apply not_elem_of_cons in Ha as [_ ?].
    + cbn in Hb. by apply not_elem_of_cons in Hb as [_ ?].
Qed.

(** From [f"{url}_{i}_{chunk}"] with the URL known, the index and the
    chunk can be read back. *)
Lemma chunk_key_inj u i j (c d : string) :
  chunk_key u i c = chunk_key u j d → i = j ∧ c = d.
Proof.
  unfold chunk_key. intros Heq%(inj (String.app _)).
  cbn in Heq. injection Heq as Heq.
  apply cut_at_underscore in Heq as [Hij ->]; [|apply pretty_nat_digits..].
  split; [|done]. by apply (inj pretty).
Qed.

(** X4. Within one document the hashed string identifies the chunk: two chunks
    of the same URL are encoded as the same string only when they are at the
    same position and have the same text. *)
Theorem chunk_key_inj_in_document u i j (c d : string) :
  chunk_key u i c = chunk_key u j d ↔ i = j ∧ c = d.
Proof. split; [apply chunk_key_inj|by intros [-> ->]]. Qed.

End KeyFacts.

(** ** [URLChunker.create_chunks] *)

Section MoreOnChunks.
Context {digest : Digest} {lib : SplitterLib}.

Lemma create_chunks_inr text md source_name s data s' :
  create_chunks text md source_name s = (inr data, s') →
  s' = s
  ∧ split_text (text_splitter s) text = inr (chunks data)
  ∧ length (ids data) = length (chunks data)
  ∧ metadatas data = imap (chunk_metadata md source_name) (chunks data).
Proof.
  destruct (md !! "url") as [u|] eqn:Hu.
  - intros (-> & Hs & Hi & Hm)%(create_chunks_ok _ _ _ _ _ _ _ Hu).
    by rewrite Hi, length_imap.
  - rewrite create_chunks_run.
    destruct (split_text _ _) as [e|[|c cs]]; simpl; [done| |by rewrite Hu].
    by intros [= <- <-].
Qed.

(** X1. [create_chunks] returns the chunks of the installed splitter, in the
    splitter's order and without dropping duplicates, with one id and one
    metadata dictionary per chunk, and leaves the object as it was. *)
Theorem create_chunks_aligned text md source_name s data s' :
  create_chunks text md source_name s = (inr data, s') →
  s' = s
  ∧ split_text (text_splitter s) text = inr (chunks data)
  ∧ length (ids data) = length (chunks data)
  ∧ length (metadatas data) = length (chunks data).
Proof.
  intros (-> & Hs & Hi & Hm)%create_chunks_inr.
  by rewrite Hm, length_imap.
Qed.

(** X2. The metadata of chunk [i]: [chunk_index] is [i], [chunk_size] is the
    length of the chunk, [source] is the source name when one is given and is
    not empty and the document's own [source] otherwise, and every other key
    is the document's. *)
Theorem create_chunks_metadata text md source_name s data s' i chunk :
  create_chunks text md source_name s = (inr data, s') →
  chunks data !! i = Some chunk →
  ∃ m, metadatas data !! i = Some m
       ∧ m !! "chunk_index" = Some (VInt (Z.of_nat i))
       ∧ m !! "chunk_size" = Some (VInt (Z.of_nat (PyStr.len chunk)))
       ∧ m !! "source"
         = match source_name with
           | Some name =>
               if PyStr.truthy name then Some (VStr name) else md !! "source"
           | None => md !! "source"
           end
       ∧ ∀ k, k ≠ "chunk_index" → k ≠ "chunk_size" → k ≠ "source" →
              m !! k = md !! k.
Proof.
  intros (_ & _ & _ & Hm)%create_chunks_inr Hc.
  exists (chunk_metadata md source_name i chunk). split.
  { by rewrite Hm, list_lookup_imap, Hc. }
  unfold chunk_metadata.
  destruct source_name as [name|]; [destruct (PyStr.truthy name)|];
    (split_and!; [| | |intros k ? ? ?]);
    by rewrite ?lookup_insert_eq, ?lookup_insert_ne, ?lookup_insert_eq by done.
Qed.

(** X3. Without a [url] key in the metadata [create_chunks] raises
    [KeyError('url')] at the first chunk and leaves the object unchanged; when
    the splitter returns no chunk the key is never read and the three lists
    come back empty. *)
Theorem create_chunks_without_url text md source_name s text_chunks :
  md !! "url" = None →
  split_text (text_splitter s) text = inr text_chunks →
  create_chunks text md source_name s
  = (match text_chunks with
     | [] => inr {| chunks := []; ids := []; metadatas := [] |}
     | _ :: _ => inl (KeyError "url")
     end, s).
Proof.
  intros Hu Hs. rewrite create_chunks_run, Hs.
  destruct text_chunks; simpl; by rewrite ?Hu.
Qed.

End MoreOnChunks.

(** ** What [process_url] and the batch do to the store *)

Section StoreEffects.
Context {digest : Digest} {lib : SplitterLib}.

Lemma sum_list_cons (x : nat) l : sum_list (x :: l) = x + sum_list l.
Proof. reflexivity. Qed.

Lemma size_list_to_set_le (l : list string) :
  size (list_to_set l : gset string) ≤ length l.
Proof.
  induction l as [|x l IH]; [done|]. cbn [list_to_set length].
  etrans; [apply size_union_le|]. rewrite size_singleton. lia.
Qed.

Lemma size_upsert_le docs ids metas (c : Collection) :
  size (upsert docs ids metas c) ≤ size c + length docs.
Proof.
  unfold upsert. rewrite <- !size_dom, dom_foldl_insert.
  etrans; [apply size_union_le|]. apply Nat.add_le_mono_l.
  etrans; [apply size_list_to_set_le|].
  rewrite length_fmap, !length_zip_with. lia.
Qed.

(** The three ways [process_url] can leave the collections: untouched; with
    the target collection obtained (created when missing) and whatever the
    upsert had written before it raised; or with the chunks upserted. *)
Lemma process_url_store w u collection_name chunk_size chunk_overlap
    source_name s r s' :
  process_url w u collection_name chunk_size chunk_overlap source_name s
    = (inr r, s') →
  let st := chroma_manager s in
  (success r = false ∧ chroma_manager s' = st)
  ∨ (success r = false
     ∧ ∃ data e,
         upsert_fault w collection_name (ids data) = Some e
         ∧ chroma_manager s'
           = <[collection_name :=
                 upsert_partial w collection_name (chunks data) (ids data)
                   (metadatas data) (default ∅ (st !! collection_name))]>
               (client_get_or_create collection_name st))
  ∨ (success r = true
     ∧ ∃ data,
         chunks_created r = length (chunks data)
         ∧ chroma_manager s'
           = <[collection_name :=
                 upsert (chunks data) (ids data) (metadatas data)
                   (default ∅ (st !! collection_name))]>
               (client_get_or_create collection_name st)).
Proof.
  rewrite process_url_run.
  destruct (configure_splitter _ _ s) as [[e|[]] s1] eqn:Hconf;
    apply configure_splitter_store in Hconf;
    [intros [= <- <-]; left; by rewrite Hconf|].
  destruct (fetch_content w u) as [e|html];
    [intros [= <- <-]; left; by rewrite Hconf|].
  destruct (extract_text w html) as [e|text];
    [intros [= <- <-]; left; by rewrite Hconf|].
  destruct (negb _); [intros [= <- <-]; left; by rewrite Hconf|].
  rewrite create_chunks_run.
  destruct (match split_text _ _ with inl e => _ | inr _ => _ end)
    as [e|data]; [intros [= <- <-]; left; by rewrite Hconf|].
  rewrite save_to_chroma_run.
  destruct (collection_fault w collection_name);
    [intros [= <- <-]; left; by rewrite Hconf|].
  simpl. destruct (upsert_fault w collection_name (ids data)) eqn:Hfault.
  - intros [= <- <-]. right. left. simpl. split; [done|].
    exists data. eexists. split; [done|]. rewrite Hconf. do 2 f_equal.
    rewrite lookup_total_alt. by rewrite client_get_or_create_lookup.
  - intros [= <- <-]. right. right. simpl. split; [done|].
    exists data. split; [done|]. rewrite Hconf. do 2 f_equal.
    rewrite lookup_total_alt. by rewrite client_get_or_create_lookup.
Qed.

Lemma client_get_or_create_other name other (st : Store) :
  other ≠ name → client_get_or_create name st !! other = st !! other.
Proof.
  intros Hne. unfold client_get_or_create.
  destruct (st !! name); [done|]. by rewrite lookup_insert_ne.
Qed.

(** The target collection only grows, by at most the chunks of the result
    unless the upsert raised after partial writes, and the other
    collections stay as they are. *)
Lemma process_url_grows w u collection_name chunk_size chunk_overlap
    source_name s r s' :
  process_url w u collection_name chunk_size chunk_overlap source_name s
    = (inr r, s') →
  (∀ other, other ≠ collection_name →
     chroma_manager s' !! other = chroma_manager s !! other)
  ∧ dom (default ∅ (chroma_manager s !! collection_name))
    ⊆ dom (default ∅ (chroma_manager s' !! collection_name))
  ∧ ((∀ ids, upsert_fault w collection_name ids = None) →
     size (default ∅ (chroma_manager s' !! collection_name))
     ≤ size (default ∅ (chroma_manager s !! collection_name))
       + chunks_created r).
Proof.
  intros Hrun.
  destruct (process_url_store _ _ _ _ _ _ _ _ _ Hrun)
    as [[_ ->]|[(_ & data & e & Hf & ->)|(_ & data & -> & ->)]].
  - split_and!; [done|done|lia].
  - rewrite lookup_insert_eq. simpl. split_and!.
    + intros other Hne. rewrite lookup_insert_ne by done.
      by apply client_get_or_create_other.
    + apply dom_upsert_partial.
    + intros Hquiet. by rewrite Hquiet in Hf.
  - rewrite lookup_insert_eq. simpl. split_and!.
    + intros other Hne. rewrite lookup_insert_ne by done.
      by apply client_get_or_create_other.
    + apply dom_upsert_subseteq.
    + intros _. apply size_upsert_le.
Qed.

(** X6. [process_url] touches no collection but the one it is given. *)
Theorem process_url_other_collections w u collection_name chunk_size
    chunk_overlap source_name s other :
  other ≠ collection_name →
  chroma_manager
    (process_url w u collection_name chunk_size chunk_overlap source_name s).2
    !! other
  = chroma_manager s !! other.
Proof.
  intros Hne.
  destruct (process_url_returns w u collection_name chunk_size chunk_overlap
              source_name s) as (r & s' & Hrun & _).
  rewrite Hrun. simpl.
  by apply (process_url_grows _ _ _ _ _ _ _ _ _ Hrun).
Qed.

(** X7. [process_url] never removes a record: every id of the target
    collection is still there after the call, also when the upsert raised
    after it had written some records; and when the store's upsert does
    not raise, the collection has grown by at most [chunks_created]
    records. *)
Theorem process_url_only_adds w u collection_name chunk_size chunk_overlap
    source_name s r s' :
  process_url w u collection_name chunk_size chunk_overlap source_name s
    = (inr r, s') →
  let before := default ∅ (chroma_manager s !! collection_name) in
  let after := default ∅ (chroma_manager s' !! collection_name) in
  dom before ⊆ dom after
  ∧ ((∀ ids, upsert_fault w collection_name ids = None) →
     size after ≤ size before + chunks_created r).
Proof.
  intros Hrun before after. subst before after.
  by destruct (process_url_grows _ _ _ _ _ _ _ _ _ Hrun) as (_ & ? & ?).
Qed.

(** X8. Unless the upsert itself raises, a failed [process_url] leaves every
    collection exactly as it was, and creates none. *)
Theorem process_url_failure_writes_nothing w u collection_name chunk_size
    chunk_overlap source_name s r s' :
  (∀ ids, upsert_fault w collection_name ids = None) →
  process_url w u collection_name chunk_size chunk_overlap source_name s
    = (inr r, s') →
  success r = false →
  chroma_manager s' = chroma_manager s.
Proof.
  intros Hquiet Hrun Hfail.
  destruct (process_url_store _ _ _ _ _ _ _ _ _ Hrun)
    as [[_ ->]|[(_ & data & e & Hf & _)|(Hok & _)]]; [done| |congruence].
  by rewrite Hquiet in Hf.
Qed.

Lemma configure_splitter_installs chunk_size chunk_overlap s r s1 :
  configure_splitter chunk_size chunk_overlap s = (r, s1) →
  text_splitter s1
  = if decide (chunk_size = 1000 ∧ chunk_overlap = 200)%Z
    then text_splitter s
    else match RecursiveCharacterTextSplitter chunk_size chunk_overlap
                 russian_separators with
         | inr splitter => splitter
         | inl _ => text_splitter s
         end.
Proof.
  unfold configure_splitter.
  unfold mbind, M_bind, mret, M_ret, outcome, modify.
  destruct (decide (chunk_size ≠ 1000 ∨ chunk_overlap ≠ 200)%Z).
  - rewrite decide_False by lia.
    destruct (RecursiveCharacterTextSplitter _ _ _); by intros [= _ <-].
  - rewrite decide_True by lia. by intros [= _ <-].
Qed.

(** X9. The splitter installed after a call is decided by the arguments and
    the splitter installed before, not by how the call ended: the default
    arguments and a rejected policy keep the old splitter, any other arguments
    install theirs, also when the call then fails. *)
Theorem process_url_installed_splitter w u collection_name chunk_size
    chunk_overlap source_name s :
  text_splitter
    (process_url w u collection_name chunk_size chunk_overlap source_name s).2
  = if decide (chunk_size = 1000 ∧ chunk_overlap = 200)%Z
    then text_splitter s
    else match RecursiveCharacterTextSplitter chunk_size chunk_overlap
                 russian_separators with
         | inr splitter => splitter
         | inl _ => text_splitter s
         end.
Proof.
  rewrite process_url_run.
  destruct (configure_splitter _ _ s) as [[e|[]] s1] eqn:Hc;
    apply configure_splitter_installs in Hc; [done|].
  destruct (fetch_content w u) as [e|html]; [done|].
  destruct (extract_text w html) as [e|text]; [done|].
  destruct (negb _); [done|].
  rewrite create_chunks_run.
  destruct (match split_text _ _ with inl e => _ | inr _ => _ end)
    as [e|data]; [done|].
  rewrite save_to_chroma_run.
  destruct (collection_fault w collection_name); [done|]. simpl.
  by destruct (upsert_fault w collection_name (ids data)).
Qed.

(** One document of the batch, then the rest. *)
Lemma batch_step w u rest collection_name chunk_size chunk_overlap
    source_name s :
  ∃ r s1 rs s2,
    process_url w u collection_name chunk_size chunk_overlap source_name s
      = (inr r, s1)
    ∧ process_multiple_urls w rest collection_name chunk_size chunk_overlap
        source_name s1 = (inr rs, s2)
    ∧ process_multiple_urls w (u :: rest) collection_name chunk_size
        chunk_overlap source_name s = (inr (r :: rs), s2).
Proof.
  destruct (process_url_returns w u collection_name chunk_size chunk_overlap
              source_name s) as (r & s1 & Hr & _).
  destruct (batch_loop_total w collection_name chunk_size chunk_overlap
              source_name rest s1) as (rs & s2 & Hrest & _).
  exists r, s1, rs, s2. unfold process_multiple_urls.
  rewrite (batch_loop_cons _ _ _ _ _ _ _ _ _ _ _ Hr), !Hrest. done.
Qed.

(** X12. The batch touches no collection but the one it is given and
    removes no record from that one; and when the store's upsert does not
    raise, it adds at most as many records as the chunk total it logs. *)
Theorem batch_only_adds w urls collection_name chunk_size chunk_overlap
    source_name :
  ∀ s rs s',
    process_multiple_urls w urls collection_name chunk_size chunk_overlap
      source_name s = (inr rs, s') →
    let before := default ∅ (chroma_manager s !! collection_name) in
    let after := default ∅ (chroma_manager s' !! collection_name) in
    (∀ other, other ≠ collection_name →
       chroma_manager s' !! other = chroma_manager s !! other)
    ∧ dom before ⊆ dom after
    ∧ ((∀ ids, upsert_fault w collection_name ids = None) →
       size after ≤ size before + total_chunks rs).
Proof.
  induction urls as [|u rest IH]; intros s rs s'.
  - intros [= <- <-]. simpl. split_and!; [done|done|]. lia.
  - destruct (batch_step w u rest collection_name chunk_size chunk_overlap
                source_name s) as (r & s1 & rs' & s2 & Hr & Hrest & ->).
    intros [= <- <-].
    destruct (IH _ _ _ Hrest) as (Hother & Hdom & Hsize).
    destruct (process_url_grows _ _ _ _ _ _ _ _ _ Hr)
      as (Hother1 & Hdom1 & Hsize1).
    split_and!.
    + intros other Hne. rewrite Hother by done. by apply Hother1.
    + by etrans.
    + intros Hquiet. unfold total_chunks in *.
      rewrite fmap_cons, sum_list_cons.
      etrans; [by apply Hsize|].
      etrans; [by apply Nat.add_le_mono_r, Hsize1|].
      by rewrite Nat.add_assoc.
Qed.

(** X13. The chunk total that the batch logs counts the chunks of the
    successful documents only, and the success count is at most the number of
    URLs. *)
Theorem batch_totals w urls collection_name chunk_size chunk_overlap
    source_name :
  ∀ s rs s',
    process_multiple_urls w urls collection_name chunk_size chunk_overlap
      source_name s = (inr rs, s') →
    total_chunks rs = total_chunks (filter (λ r, success r = true) rs)
    ∧ successful rs ≤ length urls.
Proof.
  induction urls as [|u rest IH]; intros s rs s'.
  - by intros [= <- <-].
  - destruct (batch_step w u rest collection_name chunk_size chunk_overlap
                source_name s) as (r & s1 & rs' & s2 & Hr & Hrest & ->).
    intros [= <- <-].
    destruct (IH _ _ _ Hrest) as [Htotal Hcount].
    destruct (process_url_returns w u collection_name chunk_size
                chunk_overlap source_name s) as (r' & s1' & Hr' & _ & Hfail).
    rewrite Hr in Hr'. injection Hr' as <- <-.
    unfold successful, total_chunks in *. rewrite filter_cons.
    destruct (decide (success r = true)) as [Hok|Hno].
    + rewrite !fmap_cons, !sum_list_cons. cbn [length].
      split; [by rewrite Htotal|by apply le_n_S].
    + destruct (success r) eqn:Hs; [done|].
      destruct (Hfail eq_refl) as [Hzero _].
      rewrite fmap_cons, sum_list_cons, Hzero.
      split; [exact Htotal|]. by apply Nat.le_le_succ_r.
Qed.

(** X14. When the constructor of the splitter rejects the arguments of a batch
    nothing is fetched and nothing is written: every URL gets the failure
    result that carries the text of the exception, and the object is
    unchanged. *)
Theorem batch_with_rejected_policy w urls collection_name chunk_size
    chunk_overlap source_name s e :
  (chunk_size ≠ 1000 ∨ chunk_overlap ≠ 200)%Z →
  RecursiveCharacterTextSplitter chunk_size chunk_overlap russian_separators
    = inl e →
  process_multiple_urls w urls collection_name chunk_size chunk_overlap
    source_name s
  = (inr (failure (exc_str e) <$> urls), s).
Proof.
  intros Hargs Hbad. induction urls as [|u rest IH]; [done|].
  destruct (batch_step w u rest collection_name chunk_size chunk_overlap
              source_name s) as (r & s1 & rs' & s2 & Hr & Hrest & ->).
  assert (process_url w u collection_name chunk_size chunk_overlap
            source_name s
          = (inr (failure (exc_str e) u), s)) as Hu.
  { rewrite process_url_run. unfold configure_splitter.
    unfold mbind, M_bind, outcome. rewrite decide_True by done.
    by rewrite Hbad. }
  rewrite Hu in Hr. injection Hr as <- <-.
  rewrite IH in Hrest. by injection Hrest as <- <-.
Qed.

End StoreEffects.

(** ** What a successful [process_url] has stored *)

Section Stored.
Context {digest : Digest} {lib : SplitterLib}.

Lemma imap_chunk_id_NoDup u text_chunks :
  collision_free u text_chunks → NoDup (imap (chunk_id u) text_chunks).
Proof.
  intros Hfree. apply NoDup_alt. intros i j x.
  rewrite !list_lookup_imap.
  destruct (text_chunks !! i) as [c|] eqn:Hi; [|done].
  destruct (text_chunks !! j) as [d|] eqn:Hj; [|done].
  simpl. intros [= <-] [= Heq].
  symmetry in Heq. apply (Hfree _ _ _ _ Hi Hj) in Heq.
  by apply chunk_key_inj in Heq as [-> _].
Qed.

(** X5. The ids that one call of [create_chunks] returns are pairwise
    distinct, unless the digest collides on two of the hashed strings: within
    one document the hashed strings themselves never coincide. *)
Theorem create_chunks_ids_distinct text md source_name s data s' u :
  md !! "url" = Some u →
  create_chunks text md source_name s = (inr data, s') →
  collision_free u (chunks data) →
  NoDup (ids data).
Proof.
  intros Hu (_ & _ & -> & _)%(create_chunks_ok _ _ _ _ _ _ _ Hu) Hfree.
  by apply imap_chunk_id_NoDup.
Qed.

(** What a successful [process_url] has done. *)
Lemma process_url_success w u collection_name chunk_size chunk_overlap
    source_name s r s' :
  process_url w u collection_name chunk_size chunk_overlap source_name s
    = (inr r, s') →
  success r = true →
  ∃ html text text_chunks,
    fetch_content w u = inr html
    ∧ extract_text w html = inr text
    ∧ PyStr.truthy (PyStr.strip text) = true
    ∧ split_text (text_splitter s') text = inr text_chunks
    ∧ r = {| success := true; url := u;
             chunks_created := length text_chunks; error := None;
             total_characters := Some (PyStr.len text);
             metadata := Some (extract_metadata w html u) |}
    ∧ chroma_manager s'
      = <[collection_name :=
            upsert text_chunks (imap (chunk_id (VStr u)) text_chunks)
              (imap (chunk_metadata (extract_metadata w html u) source_name)
                 text_chunks)
              (default ∅ (chroma_manager s !! collection_name))]>
          (client_get_or_create collection_name (chroma_manager s)).
Proof.
  rewrite process_url_run.
  destruct (configure_splitter _ _ s) as [[e|[]] s1] eqn:Hconf;
    [by intros [= <- <-]|].
  apply configure_splitter_store in Hconf.
  destruct (fetch_content w u) as [e|html] eqn:Hf; [by intros [= <- <-]|].
  destruct (extract_text w html) as [e|text] eqn:Ht; [by intros [= <- <-]|].
  destruct (PyStr.truthy (PyStr.strip text)) eqn:Hfull;
    [|by intros [= <- <-]].
  cbn [negb].
  destruct (create_chunks _ _ _ s1) as [[e|data] s2] eqn:Hc;
    [by intros [= <- <-]|].
  apply (create_chunks_ok _ _ _ _ _ _ _ (extract_metadata_url w html u)) in Hc
    as (-> & Hsplit & Hids & Hmetas).
  rewrite save_to_chroma_run.
  destruct (collection_fault w collection_name); [by intros [= <- <-]|].
  simpl. destruct (upsert_fault w collection_name (ids data));
    [by intros [= <- <-]|].
  intros [= <- <-] _. exists html, text, (chunks data). simpl.
  split_and!; [done..|]. rewrite Hconf, <- Hids, <- Hmetas. do 2 f_equal.
  rewrite lookup_total_alt. by rewrite client_get_or_create_lookup.
Qed.

(** The path on which nothing fails. *)
Lemma process_url_quiet w u collection_name chunk_size chunk_overlap
    source_name s s1 html text text_chunks :
  configure_splitter chunk_size chunk_overlap s = (inr tt, s1) →
  fetch_content w u = inr html →
  extract_text w html = inr text →
  PyStr.truthy (PyStr.strip text) = true →
  split_text (text_splitter s1) text = inr text_chunks →
  collection_fault w collection_name = None →
  upsert_fault w collection_name (imap (chunk_id (VStr u)) text_chunks)
    = None →
  process_url w u collection_name chunk_size chunk_overlap source_name s
  = (inr {| success := true; url := u;
            chunks_created := length text_chunks; error := None;
            total_characters := Some (PyStr.len text);
            metadata := Some (extract_metadata w html u) |},
     {| text_splitter := text_splitter s1;
        chroma_manager :=
          <[collection_name :=
              upsert text_chunks (imap (chunk_id (VStr u)) text_chunks)
                (imap (chunk_metadata (extract_metadata w html u)
                         source_name) text_chunks)
                (client_get_or_create collection_name (chroma_manager s1)
                   !!! collection_name)]>
            (client_get_or_create collection_name (chroma_manager s1)) |}).
Proof.
  intros Hconf Hfetch Htext Hfull Hsplit Hcf Huf.
  rewrite process_url_run, Hconf, Hfetch, Htext, Hfull. cbn [negb].
  rewrite (create_chunks_split _ _ _ _ _ _ (extract_metadata_url w html u)
             Hsplit).
  rewrite save_to_chroma_run, Hcf. simpl. by rewrite Huf.
Qed.

(** X10. After a successful [process_url] the collection returns, under the id
    of each chunk, the text of the chunk and its metadata, provided no two
    chunks of the document collide under the digest. *)
Theorem stored_chunks_can_be_looked_up w u collection_name chunk_size
    chunk_overlap source_name s r s' :
  process_url w u collection_name chunk_size chunk_overlap source_name s
    = (inr r, s') →
  success r = true →
  ∃ html text text_chunks c,
    fetch_content w u = inr html
    ∧ extract_text w html = inr text
    ∧ split_text (text_splitter s') text = inr text_chunks
    ∧ chunks_created r = length text_chunks
    ∧ chroma_manager s' !! collection_name = Some c
    ∧ (collision_free (VStr u) text_chunks →
       ∀ k chunk,
         text_chunks !! k = Some chunk →
         c !! chunk_id (VStr u) k chunk
         = Some (chunk,
                 chunk_metadata (extract_metadata w html u) source_name
                   k chunk)).
Proof.
  intros Hrun Hok.
  destruct (process_url_success _ _ _ _ _ _ _ _ _ Hrun Hok)
    as (html & text & cs & Hf & Ht & _ & Hs & -> & ->).
  eexists html, text, cs, _. split_and!; [done..|apply lookup_insert_eq|].
  intros Hfree%imap_chunk_id_NoDup k chunk Hk.
  eapply upsert_last_wins; [|done| |].
  - by rewrite list_lookup_imap, Hk.
  - by rewrite list_lookup_imap, Hk.
  - intros j Hj Hdup.
    assert (imap (chunk_id (VStr u)) cs !! k
            = Some (chunk_id (VStr u) k chunk)) as Hik
      by (by rewrite list_lookup_imap, Hk).
    pose proof (NoDup_lookup _ _ _ _ Hfree Hdup Hik). lia.
Qed.

(** X11. A successful ingestion into a collection that did not exist or was
    empty leaves exactly [chunks_created] records in it, provided no two
    chunks of the document collide under the digest. *)
Theorem first_ingestion_count w u collection_name chunk_size chunk_overlap
    source_name s r s' :
  process_url w u collection_name chunk_size chunk_overlap source_name s
    = (inr r, s') →
  success r = true →
  default ∅ (chroma_manager s !! collection_name) = ∅ →
  ∃ html text text_chunks,
    fetch_content w u = inr html
    ∧ extract_text w html = inr text
    ∧ split_text (text_splitter s') text = inr text_chunks
    ∧ (collision_free (VStr u) text_chunks →
       count_items collection_name (chroma_manager s')
       = inr (chunks_created r)).
Proof.
  intros Hrun Hok Hempty.
  destruct (process_url_success _ _ _ _ _ _ _ _ _ Hrun Hok)
    as (html & text & cs & Hf & Ht & _ & Hs & -> & ->).
  exists html, text, cs. split_and!; [done..|].
  intros Hfree%imap_chunk_id_NoDup. unfold count_items.
  rewrite lookup_insert_eq, Hempty. simpl. f_equal.
  rewrite <- size_dom, dom_upsert by (by rewrite !length_imap).
  rewrite dom_empty_L, (left_id_L ∅ (∪)).
  by rewrite size_list_to_set, length_imap.
Qed.

End Stored.

(** ** More on [add_texts] *)

Section MoreOnAddTexts.
Context {digest : Digest} {lib : SplitterLib}.

(** An upsert depends on the collection it is applied to only for the ids
    it does not write. *)
Lemma lookup_foldl_insert_in (l : list (string * (string * Metadata)))
    (c c' : Collection) k :
  k ∈ l.*1 →
  foldl (λ acc r, <[r.1 := r.2]> acc) c l !! k
  = foldl (λ acc r, <[r.1 := r.2]> acc) c' l !! k.
Proof.
  revert c c'. induction l as [|r l IH]; intros c c'.
  - by intros ?%elem_of_nil.
  - rewrite fmap_cons, elem_of_cons. intros Hk. cbn [foldl].
    destruct (decide (k ∈ l.*1)) as [Hin|Hout]; [by apply IH|].
    destruct Hk as [->|?]; [|done].
    by rewrite !lookup_foldl_insert_notin, !lookup_insert_eq.
Qed.

Lemma upsert_upsert docs ids metas (c : Collection) :
  upsert docs ids metas (upsert docs ids metas c) = upsert docs ids metas c.
Proof.
  apply map_eq. intros k. unfold upsert.
  destruct (decide (k ∈ (zip ids (zip docs metas)).*1)) as [Hin|Hout].
  - by apply lookup_foldl_insert_in.
  - by rewrite !lookup_foldl_insert_notin.
Qed.

(** X16. [add_texts] is idempotent: a second call with the same arguments that
    meets the same store leaves the collections exactly as the first call left
    them. *)
Theorem add_texts_twice w collection_name texts metas source_name
    chunk_size chunk_overlap (st st1 : Store) :
  add_texts w collection_name texts metas source_name chunk_size
    chunk_overlap st = (inr tt, st1) →
  add_texts w collection_name texts metas source_name chunk_size
    chunk_overlap st1 = (inr tt, st1).
Proof.
  rewrite !add_texts_run.
  destruct (collection_fault w collection_name); [done|]. simpl.
  destruct (RecursiveCharacterTextSplitter _ _ _) as [e|splitter]; [done|].
  destruct (add_texts_loop _ _ _ _ _ _) as [e|data]; [done|].
  assert (∀ st0 : Store, is_Some (st0 !! collection_name) →
            client_get_or_create collection_name st0 = st0) as Hkeep.
  { intros st0 [c Hc]. unfold client_get_or_create. by rewrite Hc. }
  destruct (chunks data) as [|c cs] eqn:Hchunks.
  - intros [= <-]. rewrite Hkeep; [done|].
    rewrite client_get_or_create_lookup. eauto.
  - destruct (upsert_fault w collection_name (ids data)); [done|].
    intros [= <-]. rewrite Hkeep by (rewrite lookup_insert_eq; eauto).
    f_equal. rewrite insert_insert_eq. f_equal.
    by rewrite lookup_total_insert_eq, upsert_upsert.
Qed.

(** X17. Whatever its outcome, [add_texts] touches no collection but the one
    it is given and removes no record from that one. *)
Theorem add_texts_only_adds w collection_name texts metas source_name
    chunk_size chunk_overlap (st : Store) :
  let st' := (add_texts w collection_name texts metas source_name
                chunk_size chunk_overlap st).2 in
  (∀ other, other ≠ collection_name → st' !! other = st !! other)
  ∧ dom (default ∅ (st !! collection_name))
    ⊆ dom (default ∅ (st' !! collection_name)).
Proof.
  rewrite add_texts_run.
  assert (∀ (X : PyExc + ()),
    let st' := (X, client_get_or_create collection_name st).2 in
    (∀ other, other ≠ collection_name → st' !! other = st !! other)
    ∧ dom (default ∅ (st !! collection_name))
      ⊆ dom (default ∅ (st' !! collection_name))) as Hcreated.
  { intros X. simpl. split.
    - intros other Hne. by apply client_get_or_create_other.
    - by rewrite client_get_or_create_lookup. }
  destruct (collection_fault w collection_name); [done|]. simpl.
  destruct (RecursiveCharacterTextSplitter _ _ _) as [e|splitter];
    [apply Hcreated|].
  destruct (add_texts_loop _ _ _ _ _ _) as [e|data]; [apply Hcreated|].
  destruct (chunks data) as [|c cs]; [apply Hcreated|].
  destruct (upsert_fault w collection_name (ids data)); simpl; split;
    try (intros other Hne; rewrite lookup_insert_ne by done;
         by apply client_get_or_create_other);
    rewrite lookup_insert_eq; simpl;
    rewrite lookup_total_alt, client_get_or_create_lookup; simpl.
  - apply dom_upsert_partial.
  - apply dom_upsert_subseteq.
Qed.

(** The chunks that [add_texts] assembles follow the order of the texts,
    and every chunk of text [i] carries the metadata computed for text
    [i]. *)
Lemma add_texts_loop_splits splitter metas source_name texts :
  ∀ i acc data,
    add_texts_loop splitter metas source_name i texts acc = inr data →
    ∃ splits,
      Forall2 (λ text cs, split_text splitter text = inr cs) texts splits
      ∧ chunks data = chunks acc ++ concat splits
      ∧ metadatas data
        = metadatas acc
          ++ concat (imap (λ j cs, replicate (length cs)
                             (text_metadata metas source_name (i + j)))
                       splits).
Proof.
  induction texts as [|text rest IH]; intros i acc data; simpl.
  - intros [= <-]. exists []. by rewrite !app_nil_r.
  - destruct (split_text splitter text) as [e|cs] eqn:Hs; [done|].
    intros (splits & Hall & Hc & Hm)%IH. exists (cs :: splits).
    rewrite add_chunks_spec in Hc, Hm. simpl in Hc, Hm.
    split_and!; [by constructor| |].
    + by rewrite Hc, <- app_assoc.
    + rewrite Hm, <- app_assoc, imap_cons. cbn [concat].
      rewrite Nat.add_0_r. do 3 f_equal.
      apply imap_ext. intros j x _. simpl. by rewrite Nat.add_succ_r.
Qed.

(** X18. The loop of [add_texts] keeps the chunks in the order of the
    texts, and every chunk of text [i] carries the metadata of text [i]: the
    entry [i] of [metadatas], or an empty dictionary when the list is missing
    or too short (no [IndexError]), with [source] set by a non-empty
    [source_name]. *)
Theorem add_texts_chunks_by_text splitter metas source_name texts data :
  add_texts_loop splitter metas source_name 0 texts
    {| chunks := []; ids := []; metadatas := [] |} = inr data →
  (∃ splits,
     Forall2 (λ text cs, split_text splitter text = inr cs) texts splits
     ∧ chunks data = concat splits
     ∧ metadatas data
       = concat (imap (λ i cs, replicate (length cs)
                         (text_metadata metas source_name i)) splits))
  ∧ (∀ i l, metas = Some l → length l ≤ i →
       text_metadata metas source_name i = text_metadata None source_name i)
  ∧ (∀ i l m, metas = Some l → l !! i = Some m →
       text_metadata metas source_name i
       = match source_name with
         | Some name =>
             if PyStr.truthy name then <["source" := VStr name]> m else m
         | None => m
         end).
Proof.
  intros (splits & Hall & Hc & Hm)%add_texts_loop_splits. split_and!.
  - exists splits. by split_and!.
  - intros i l -> Hi. unfold text_metadata.
    by rewrite lookup_ge_None_2.
  - intros i l m -> Hi. unfold text_metadata. by rewrite Hi.
Qed.

(** X19. When no text yields a chunk (an empty list of texts, for one),
    [add_texts] issues no upsert; the collection exists afterwards, with the
    records it had. *)
Theorem add_texts_nothing_to_add w collection_name texts metas source_name
    chunk_size chunk_overlap (st : Store) splitter :
  collection_fault w collection_name = None →
  RecursiveCharacterTextSplitter chunk_size chunk_overlap library_separators
    = inr splitter →
  Forall (λ text, split_text splitter text = inr []) texts →
  add_texts w collection_name texts metas source_name chunk_size
    chunk_overlap st
  = (inr tt, client_get_or_create collection_name st)
  ∧ client_get_or_create collection_name st !! collection_name
    = Some (default ∅ (st !! collection_name)).
Proof.
  intros Hfault Hsplitter Hall. split; [|apply client_get_or_create_lookup].
  rewrite add_texts_run, Hfault, Hsplitter. simpl.
  assert (∀ i acc, add_texts_loop splitter metas source_name i texts acc
                   = inr acc) as ->; [|done].
  induction Hall as [|text rest Ht _ IH]; intros i acc; simpl; [done|].
  rewrite Ht. rewrite add_chunks_spec. simpl. rewrite !app_nil_r, IH.
  by destruct acc.
Qed.

(** The path on which nothing fails. *)
Lemma add_texts_quiet w collection_name texts metas source_name chunk_size
    chunk_overlap (st : Store) splitter data :
  collection_fault w collection_name = None →
  RecursiveCharacterTextSplitter chunk_size chunk_overlap library_separators
    = inr splitter →
  add_texts_loop splitter metas source_name 0 texts
    {| chunks := []; ids := []; metadatas := [] |} = inr data →
  upsert_fault w collection_name (ids data) = None →
  ∃ st', add_texts w collection_name texts metas source_name chunk_size
           chunk_overlap st = (inr tt, st').
Proof.
  intros Hcf Hsplitter Hloop Huf.
  rewrite add_texts_run, Hcf. simpl. rewrite Hsplitter, Hloop.
  destruct (chunks data); [eauto|]. rewrite Huf. eauto.
Qed.

(** X20. When [add_texts] raises and it is not the store's upsert that
    raised, no record has been written: the collections are as before the
    call, except that the target collection exists, empty when it is new,
    unless it was the store that refused to hand it out.  The collection is
    obtained before the splitter is built and before any text is split. *)
Theorem add_texts_failure_writes_nothing w collection_name texts metas
    source_name chunk_size chunk_overlap (st st' : Store) e :
  (∀ ids, upsert_fault w collection_name ids = None) →
  add_texts w collection_name texts metas source_name chunk_size
    chunk_overlap st = (inl e, st') →
  st' = match collection_fault w collection_name with
        | Some _ => st
        | None => client_get_or_create collection_name st
        end.
Proof.
  intros Hquiet. rewrite add_texts_run.
  destruct (collection_fault w collection_name); [by intros [= _ <-]|].
  simpl.
  destruct (RecursiveCharacterTextSplitter _ _ _) as [e'|splitter];
    [by intros [= _ <-]|].
  destruct (add_texts_loop _ _ _ _ _ _) as [e'|data]; [by intros [= _ <-]|].
  destruct (chunks data) as [|c cs]; [done|].
  by rewrite Hquiet.
Qed.

End MoreOnAddTexts.

(** ** [WebContentExtractor.clean_text] *)

Section CleanTextFacts.
Import PyStr PyStrFacts.

Lemma app_empty_r (s : string) : s +:+ "" = s.
Proof. induction s as [|c s IH]; [done|]. exact (f_equal (String c) IH). Qed.

Lemma app_cons (c : ascii) (s t : string) :
  String c s +:+ t = String c (s +:+ t).
Proof. reflexivity. Qed.

Lemma every_char_app P (s t : string) :
  every_char P (s +:+ t) ↔ every_char P s ∧ every_char P t.
Proof.
  induction s as [|c s IH]; [simpl; tauto|].
  rewrite app_cons. simpl. rewrite IH. tauto.
Qed.

Lemma every_char_impl (P Q : ascii → Prop) s :
  (∀ c, P c → Q c) → every_char P s → every_char Q s.
Proof. intros HPQ. induction s; simpl; [done|]. intros [??]. auto. Qed.

(** *** Runs *)

Lemma flush_run_cases least repl run :
  flush_run least repl run = "" ∧ run = ""
  ∨ flush_run least repl run = repl ∧ run ≠ "" ∧ least ≤ len run
  ∨ flush_run least repl run = run ∧ run ≠ "" ∧ len run < least.
Proof.
  destruct run as [|c r]; [by left|]. simpl.
  destruct (decide _); [right; left|right; right]; split_and!; try done; lia.
Qed.

(** A string of characters outside the class resets the count. *)
Lemma run_bound_skip cls k n (t u : string) :
  t ≠ "" → every_char (λ c, cls c = false) t →
  run_bound cls k n (t +:+ u) ↔ run_bound cls k 0 u.
Proof.
  intros Ht Hall. revert n. induction t as [|c t IH]; intros n; [done|].
  rewrite app_cons. simpl in *. destruct Hall as [-> Hall].
  destruct t as [|c' t']; [done|]. by apply IH.
Qed.

(** A string of characters of the class counts in full. *)
Lemma run_bound_count cls k n (t u : string) :
  every_char (λ c, cls c = true) t →
  run_bound cls k n (t +:+ u)
  ↔ (t = "" ∨ n + len t ≤ k) ∧ run_bound cls k (n + len t) u.
Proof.
  revert n. induction t as [|c t IH]; intros n Hall.
  - simpl. rewrite Nat.add_0_r.
    split; [intros ?; split; [by left|done]|by intros [_ ?]].
  - rewrite app_cons. simpl in *. destruct Hall as [-> Hall].
    rewrite (IH (S n) Hall). replace (S n + len t) with (n + S (len t)) by lia.
    split.
    + intros (? & [->|?] & ?); (split; [right; simpl; lia|done]).
    + intros ([?|?] & ?); [done|]. split_and!; [lia|right; lia|done].
Qed.

Lemma run_bound_weaken cls k n m s :
  m ≤ n → run_bound cls k n s → run_bound cls k m s.
Proof.
  revert n m. induction s as [|c s IH]; intros n m Hle; simpl; [done|].
  destruct (cls c); [|done]. intros [? ?]. split; [lia|].
  eapply IH; [|done]. lia.
Qed.

(** A pass over a class bounds the runs of that class: the replacement
    and the runs that are too short to match are all that is left. *)
Lemma sub_runs_bounds cls least repl k :
  every_char (λ c, cls c = true) repl → len repl ≤ k → least ≤ S k →
  ∀ s run,
    every_char (λ c, cls c = true) run →
    run_bound cls k 0 (sub_runs cls least repl run s).
Proof.
  intros Hrepl Hlen Hleast.
  assert (∀ run u, every_char (λ c, cls c = true) run →
                   run_bound cls k (len (flush_run least repl run)) u
                   ∨ flush_run least repl run = "" ∧ run_bound cls k 0 u →
                   run_bound cls k 0 (flush_run least repl run +:+ u))
    as Hflush.
  { intros run u Hrun [Hu|[Hempty Hu]]; [|by rewrite Hempty].
    destruct (flush_run_cases least repl run)
      as [[Hf _]|[(Hf & _ & _)|(Hf & _ & Hshort)]]; rewrite Hf in *.
    - done.
    - apply run_bound_count; [done|]. split; [right; simpl; lia|done].
    - apply run_bound_count; [done|]. split; [right; simpl; lia|done]. }
  induction s as [|c s IH]; intros run Hrun; simpl.
  - rewrite <- (app_empty_r (flush_run _ _ _)). apply Hflush; [done|].
    by left.
  - destruct (cls c) eqn:Hc.
    + apply IH. apply every_char_app. by split.
    + apply Hflush; [done|]. left. simpl. rewrite Hc. by apply IH.
Qed.

(** A pass over a class keeps the bound on the runs of another class,
    provided the replacement is not empty and has no character of that
    other class. *)
Lemma sub_runs_keeps_bound p k cls least repl :
  (∀ c, cls c = true → p c = false) →
  repl ≠ "" → every_char (λ c, p c = false) repl →
  ∀ s run n,
    every_char (λ c, cls c = true) run →
    run_bound p k n (run +:+ s) →
    run_bound p k n (sub_runs cls least repl run s).
Proof.
  intros Hdisj Hne Hrepl.
  assert (∀ run n u, every_char (λ c, cls c = true) run →
            run_bound p k n (run +:+ u) →
            run_bound p k n (flush_run least repl run +:+ u)) as Hflush.
  { intros run n u Hrun Hu.
    destruct (flush_run_cases least repl run)
      as [[-> ->]|[(-> & Hr & _)|(-> & _ & _)]]; [done| |done].
    apply run_bound_skip; [done..|].
    eapply run_bound_skip; [| |done]; [done|].
    eapply every_char_impl; [|done]. auto. }
  induction s as [|c s IH]; intros run n Hrun Hs; simpl.
  - rewrite <- (app_empty_r (flush_run _ _ _)). by apply Hflush.
  - destruct (cls c) eqn:Hc.
    + apply IH; [apply every_char_app; by split|].
      by rewrite app_assoc_string.
    + apply Hflush; [done|].
      destruct run as [|a run'].
      * simpl in *. destruct (p c); [split; [tauto|]|];
          apply (IH "" _ I); simpl; tauto.
      * apply run_bound_skip; [done|eapply every_char_impl; [|done]; auto|].
        apply run_bound_skip in Hs;
          [|done|eapply every_char_impl; [|done]; auto].
        simpl in *. destruct (p c); [split; [tauto|]|];
          apply (IH "" _ I); simpl; tauto.
Qed.


(** *** Characters *)

Lemma sub_runs_chars (P : ascii → Prop) cls least repl :
  every_char P repl →
  ∀ s run, every_char P run → every_char P s →
           every_char P (sub_runs cls least repl run s).
Proof.
  intros Hrepl.
  assert (∀ run, every_char P run →
                 every_char P (flush_run least repl run)) as Hflush.
  { intros run Hrun.
    destruct (flush_run_cases least repl run)
      as [[-> _]|[(-> & _ & _)|(-> & _ & _)]]; done. }
  induction s as [|c s IH]; intros run Hrun Hs; simpl; [by apply Hflush|].
  destruct Hs as [Hc Hs]. destruct (cls c).
  - apply IH; [|done]. apply every_char_app. by split.
  - apply every_char_app. split; [by apply Hflush|]. split; [done|].
    by apply IH.
Qed.

(** After the whitespace pass every whitespace character is a space. *)
Lemma sub_runs_spaces :
  ∀ s run, every_char (λ c, isspace c = true) run →
    every_char (λ c, isspace c = true → c = " "%char)
      (sub_runs isspace 1 " " run s).
Proof.
  assert (∀ run, every_char (λ c, isspace c = true → c = " "%char)
                   (flush_run 1 " " run)) as Hflush.
  { intros run.
    destruct (flush_run_cases 1 " " run)
      as [[-> _]|[(-> & _ & _)|(_ & Hne & Hlen)]]; [done|simpl; tauto|].
    destruct run; [done|simpl in Hlen; lia]. }
  induction s as [|c s IH]; intros run Hrun; simpl; [apply Hflush|].
  destruct (isspace c) eqn:Hc.
  - apply IH. apply every_char_app. by split.
  - apply every_char_app. split; [apply Hflush|]. split; [congruence|].
    by apply IH.
Qed.

(** A pass over a class that does not occur changes nothing. *)
Lemma sub_runs_absent cls least repl s :
  every_char (λ c, cls c = false) s → sub_runs cls least repl "" s = s.
Proof.
  induction s as [|c s IH]; simpl; [done|]. intros [-> Hs]. simpl.
  by rewrite IH.
Qed.

(** *** [strip] *)

Lemma rev_app_app (s t u : string) :
  String.rev_app (s +:+ t) u = String.rev_app t (String.rev_app s u).
Proof.
  revert u. induction s as [|c s IH]; intros u; [done|].
  rewrite app_cons. simpl. apply IH.
Qed.

Lemma rev_app_rev (s u : string) : String.rev_app s u = String.rev s +:+ u.
Proof.
  unfold String.rev. revert u. induction s as [|c s IH]; intros u; [done|].
  simpl. rewrite (IH (String c "")), (IH (String c u)).
  by rewrite app_assoc_string.
Qed.

Lemma rev_cons c s : String.rev (String c s) = String.rev s +:+ String c "".
Proof. unfold String.rev. simpl. apply rev_app_rev. Qed.

Lemma rev_snoc c s : String.rev (s +:+ String c "") = String c (String.rev s).
Proof. unfold String.rev. by rewrite rev_app_app. Qed.

Lemma lstrip_snoc c s :
  lstrip (s +:+ String c "")
  = match lstrip s with
    | "" => if isspace c then "" else String c ""
    | String _ _ => lstrip s +:+ String c ""
    end.
Proof.
  induction s as [|a s IH]; [done|]. rewrite app_cons. simpl.
  destruct (isspace a); [done|]. done.
Qed.

(** [rstrip], read from the left. *)
Lemma rstrip_cons c s :
  rstrip (String c s)
  = match rstrip s with
    | "" => if isspace c then "" else String c ""
    | String _ _ => String c (rstrip s)
    end.
Proof.
  unfold rstrip. rewrite rev_cons, lstrip_snoc.
  destruct (lstrip (String.rev s)) as [|a t] eqn:E.
  - simpl. by destruct (isspace c).
  - rewrite rev_snoc. rewrite <- E.
    destruct (String.rev (lstrip (String.rev s))) eqn:E'; [|done].
    apply rev_empty in E'. congruence.
Qed.

Lemma every_char_lstrip P s : every_char P s → every_char P (lstrip s).
Proof.
  induction s as [|c s IH]; simpl; [done|]. intros [? ?].
  destruct (isspace c); simpl; auto.
Qed.

Lemma every_char_rstrip P s : every_char P s → every_char P (rstrip s).
Proof.
  induction s as [|c s IH]; [done|]. intros [? Hs]. rewrite rstrip_cons.
  specialize (IH Hs). destruct (rstrip s); [|done].
  by destruct (isspace c).
Qed.

Lemma run_bound_lstrip cls k s :
  run_bound cls k 0 s → run_bound cls k 0 (lstrip s).
Proof.
  induction s as [|c s IH]; simpl; [done|].
  destruct (isspace c) eqn:Hc; [|done].
  destruct (cls c); [|done]. intros [_ ?]. apply IH.
  eapply run_bound_weaken; [|done]. lia.
Qed.

Lemma run_bound_rstrip cls k s :
  ∀ n, run_bound cls k n s → run_bound cls k n (rstrip s).
Proof.
  induction s as [|c s IH]; intros n; [done|]. rewrite rstrip_cons.
  simpl. intros Hs.
  destruct (rstrip s) eqn:E.
  - destruct (isspace c); [done|]. simpl. destruct (cls c); [|done].
    by destruct Hs.
  - simpl. destruct (cls c); [destruct Hs; split; [done|]|]; by apply IH.
Qed.

Lemma rstrip_rstrip s : rstrip (rstrip s) = rstrip s.
Proof.
  induction s as [|c s IH]; [done|]. rewrite rstrip_cons.
  destruct (rstrip s) as [|a t] eqn:E.
  - destruct (isspace c) eqn:Hc; [done|]. rewrite rstrip_cons. simpl.
    unfold rstrip. simpl. by rewrite Hc.
  - rewrite rstrip_cons, IH. done.
Qed.

Lemma lstrip_fixed s : lstrip (lstrip s) = lstrip s.
Proof.
  destruct (lstrip s) as [|a t] eqn:E; [done|].
  apply lstrip_head in E. simpl. by rewrite E.
Qed.

Lemma strip_strip s : strip (strip s) = strip s.
Proof.
  unfold strip.
  assert (lstrip (rstrip (lstrip s)) = rstrip (lstrip s)) as ->;
    [|apply rstrip_rstrip].
  destruct (lstrip s) as [|a t] eqn:E; [done|].
  apply lstrip_head in E. rewrite rstrip_cons.
  destruct (rstrip t); rewrite ?E; simpl; by rewrite E.
Qed.


Lemma is_char_true x c : is_char x c = true ↔ c = x.
Proof. unfold is_char. apply bool_decide_eq_true. Qed.

Lemma is_crlftab_isspace c : is_crlftab c = true → isspace c = true.
Proof. destruct c as [[] [] [] [] [] [] [] []]; done. Qed.

(** A pass over one punctuation character keeps the spacing. *)
Lemma re_sub_punct_spacing x least repl s :
  isspace x = false → repl ≠ "" → every_char (λ c, c = x) repl →
  every_char (λ c, isspace c = true → c = " "%char) s →
  run_bound isspace 1 0 s →
  every_char (λ c, isspace c = true → c = " "%char)
    (re_sub (is_char x) least repl s)
  ∧ run_bound isspace 1 0 (re_sub (is_char x) least repl s).
Proof.
  intros Hx Hne Hrepl Hs Hb. unfold re_sub. split.
  - apply sub_runs_chars; [|done..].
    eapply every_char_impl; [|done]. intros c -> ?. congruence.
  - apply sub_runs_keeps_bound; [|done| |done..].
    + by intros c ->%is_char_true.
    + eapply every_char_impl; [|done]. by intros c ->.
Qed.

(** It bounds the runs of its own character... *)
Lemma re_sub_punct_own x least repl k s :
  every_char (λ c, c = x) repl → len repl ≤ k → least ≤ S k →
  run_bound (is_char x) k 0 (re_sub (is_char x) least repl s).
Proof.
  intros Hrepl Hlen Hleast. apply sub_runs_bounds; [|done..].
  eapply every_char_impl; [|done]. intros c ->. by apply is_char_true.
Qed.

(** ... and keeps the bound on the runs of any other character. *)
Lemma re_sub_punct_other x y least repl k s :
  y ≠ x → repl ≠ "" → every_char (λ c, c = x) repl →
  run_bound (is_char y) k 0 s →
  run_bound (is_char y) k 0 (re_sub (is_char x) least repl s).
Proof.
  intros Hxy Hne Hrepl Hs. apply sub_runs_keeps_bound; [|done| |done..].
  - intros c ->%is_char_true. unfold is_char. by rewrite bool_decide_eq_false.
  - eapply every_char_impl; [|done]. intros c ->. unfold is_char.
    by rewrite bool_decide_eq_false.
Qed.

(** The last pass finds nothing to replace. *)
Lemma re_sub_crlftab_nothing s :
  every_char (λ c, isspace c = true → c = " "%char) s →
  re_sub is_crlftab 1 " " s = s.
Proof.
  intros Hs. apply sub_runs_absent. eapply every_char_impl; [|done].
  intros c Hc. destruct (is_crlftab c) eqn:E; [|done].
  by rewrite (Hc (is_crlftab_isspace _ E)) in E.
Qed.

(** What the passes of [clean_text] establish. *)
Lemma clean_text_shape text :
  every_char (λ c, isspace c = true → c = " "%char) (clean_text text)
  ∧ run_bound isspace 1 0 (clean_text text)
  ∧ strip (clean_text text) = clean_text text
  ∧ run_bound (is_char ".") 3 0 (clean_text text)
  ∧ run_bound (is_char "!") 1 0 (clean_text text)
  ∧ run_bound (is_char "?") 1 0 (clean_text text).
Proof.
  unfold clean_text. destruct (negb (truthy text)); [done|]. simpl.
  set (t1 := re_sub isspace 1 " " text).
  assert (every_char (λ c, isspace c = true → c = " "%char) t1
          ∧ run_bound isspace 1 0 t1) as [Ha1 Hb1].
  { split; [by apply sub_runs_spaces|].
    apply sub_runs_bounds; simpl; auto. }
  destruct (re_sub_punct_spacing "." 3 "..." t1) as [Ha2 Hb2];
    [simpl; auto..|].
  destruct (re_sub_punct_spacing "!" 2 "!" _ eq_refl ltac:(done)
              ltac:(simpl; auto) Ha2 Hb2) as [Ha3 Hb3].
  destruct (re_sub_punct_spacing "?" 2 "?" _ eq_refl ltac:(done)
              ltac:(simpl; auto) Ha3 Hb3) as [Ha4 Hb4].
  rewrite re_sub_crlftab_nothing by done.
  set (t2 := re_sub (is_char ".") 3 "..." t1) in *.
  set (t3 := re_sub (is_char "!") 2 "!" t2) in *.
  assert (run_bound (is_char ".") 3 0 t2) as Hdot
    by (apply re_sub_punct_own; simpl; auto).
  assert (run_bound (is_char "!") 1 0 t3) as Hbang
    by (apply re_sub_punct_own; simpl; auto).
  split_and!.
  - by apply every_char_rstrip, every_char_lstrip.
  - by apply run_bound_rstrip, run_bound_lstrip.
  - apply strip_strip.
  - apply run_bound_rstrip, run_bound_lstrip.
    apply re_sub_punct_other; [done|done|simpl; auto|].
    apply re_sub_punct_other; [done|done|simpl; auto|done].
  - apply run_bound_rstrip, run_bound_lstrip.
    apply re_sub_punct_other; [done|done|simpl; auto|done].
  - apply run_bound_rstrip, run_bound_lstrip.
    apply re_sub_punct_own; simpl; auto.
Qed.

(** X21. [clean_text] returns a text in which every whitespace character is a
    single space between two characters that are not whitespace: every
    whitespace character is a space, no two of them are adjacent, and [strip]
    finds nothing to remove at either end. *)
Theorem clean_text_spacing text :
  every_char (λ c, isspace c = true → c = " "%char) (clean_text text)
  ∧ run_bound isspace 1 0 (clean_text text)
  ∧ strip (clean_text text) = clean_text text.
Proof.
  by destruct (clean_text_shape text) as (? & ? & ? & _).
Qed.

(** X22. [clean_text] leaves no run of exclamation marks or of question marks
    longer than one, and no run of full stops longer than three. *)
Theorem clean_text_punctuation text :
  run_bound (is_char ".") 3 0 (clean_text text)
  ∧ run_bound (is_char "!") 1 0 (clean_text text)
  ∧ run_bound (is_char "?") 1 0 (clean_text text).
Proof.
  by destruct (clean_text_shape text) as (_ & _ & _ & ? & ? & ?).
Qed.

Lemma every_char_list (P : ascii → Prop) s :
  every_char P s ↔ ∀ c, c ∈ String.list_ascii_of_string s → P c.
Proof.
  induction s as [|a s IH]; simpl.
  - split; [|done]. intros _ c Hc. by apply elem_of_nil in Hc.
  - rewrite IH. split.
    + intros [? H] c [->|?]%elem_of_cons; auto.
    + intros H. split; [apply H; left|intros c ?; apply H; by right].
Qed.

(** *** Blank input *)

Lemma sub_runs_blank s :
  every_char (λ c, isspace c = true) s →
  ∀ run, run +:+ s ≠ "" → sub_runs isspace 1 " " run s = " ".
Proof.
  induction s as [|c s IH]; simpl.
  - intros _ run Hne. rewrite app_empty_r in Hne.
    destruct run; [done|]. unfold flush_run.
    case_decide as Hl; [done|]. simpl in Hl. lia.
  - intros [-> Hs] run _. apply IH; [done|]. by destruct run.
Qed.

(** Whitespace in the result of a pass over a class of whitespace
    characters was whitespace before. *)
Lemma sub_runs_blank_back_ws cls least repl :
  (∀ c, cls c = true → isspace c = true) →
  ∀ s run,
    every_char (λ c, cls c = true) run →
    every_char (λ c, isspace c = true) (sub_runs cls least repl run s) →
    every_char (λ c, isspace c = true) s.
Proof.
  intros Hcls. induction s as [|c s IH]; intros run Hrun; simpl; [done|].
  destruct (cls c) eqn:Hc.
  - intros Hout. split; [auto|]. eapply IH; [|done].
    apply every_char_app. by split.
  - intros [_ [? Hout]]%every_char_app. split; [done|]. by eapply (IH "").
Qed.

(** A blank result of a pass over a punctuation character comes from a
    blank text. *)
Lemma sub_runs_blank_back_punct cls least repl :
  (∀ c, cls c = true → isspace c = false) →
  repl ≠ "" → every_char (λ c, isspace c = false) repl →
  ∀ s run,
    every_char (λ c, cls c = true) run →
    every_char (λ c, isspace c = true) (sub_runs cls least repl run s) →
    run = "" ∧ every_char (λ c, isspace c = true) s.
Proof.
  intros Hcls Hne Hrepl.
  assert (∀ t, t ≠ "" → every_char (λ c, isspace c = false) t →
               ¬ every_char (λ c, isspace c = true) t) as Hnot.
  { intros t Ht. destruct t as [|a t]; [done|].
    intros [Ha _] [Ha' _]. congruence. }
  assert (∀ run, every_char (λ c, cls c = true) run →
            every_char (λ c, isspace c = true) (flush_run least repl run) →
            run = "") as Hflush.
  { intros run Hrun Hout.
    destruct (flush_run_cases least repl run)
      as [[_ ->]|[(Hf & _ & _)|(Hf & Hr & _)]]; [done|..];
      rewrite Hf in Hout.
    - by destruct (Hnot repl).
    - destruct (Hnot run); [done| |done].
      by apply (every_char_impl (λ c, cls c = true)). }
  induction s as [|c s IH]; intros run Hrun; simpl.
  - intros Hout. split; [by apply Hflush|done].
  - destruct (cls c) eqn:Hc.
    + intros Hout.
      assert (every_char (λ c, cls c = true) (run +:+ String c "")) as Hrun'
        by (apply every_char_app; by split).
      destruct (IH _ Hrun' Hout) as [E _]. by destruct run.
    + intros [Hf [? Hout]]%every_char_app.
      split; [by apply Hflush|]. split; [done|]. by eapply (IH "").
Qed.

(** A blank text is cleaned to the empty string... *)
Lemma clean_text_blank text :
  every_char (λ c, isspace c = true) text → clean_text text = "".
Proof.
  unfold clean_text. destruct text as [|a text]; [done|].
  change (negb (truthy (String a text))) with false. cbv iota.
  intros Hblank. unfold re_sub at 5.
  rewrite (sub_runs_blank _ Hblank "") by done. reflexivity.
Qed.

(** ... and no other text is. *)
Lemma clean_text_blank_inv text :
  clean_text text = "" → every_char (λ c, isspace c = true) text.
Proof.
  unfold clean_text. destruct text as [|a text]; [done|].
  change (negb (truthy (String a text))) with false. cbv iota.
  intros Hout.
  assert (truthy (strip (re_sub is_crlftab 1 " "
            (re_sub (is_char "?") 2 "?"
               (re_sub (is_char "!") 2 "!"
                  (re_sub (is_char ".") 3 "..."
                     (re_sub isspace 1 " " (String a text)))))))
          = false) as Hblank by (by rewrite Hout).
  pose proof (proj1 (strip_blank_iff _) Hblank) as Hlist. clear Hblank.
  pose proof (proj2 (every_char_list (λ c, isspace c = true) _) Hlist)
    as Hblank. clear Hlist.
  apply (sub_runs_blank_back_ws _ _ _ is_crlftab_isspace _ "" I) in Hblank.
  apply (sub_runs_blank_back_punct (is_char "?") 2 "?") in Hblank
    as [_ Hblank]; [|by intros c ->%is_char_true|done|simpl; auto|done].
  apply (sub_runs_blank_back_punct (is_char "!") 2 "!") in Hblank
    as [_ Hblank]; [|by intros c ->%is_char_true|done|simpl; auto|done].
  apply (sub_runs_blank_back_punct (is_char ".") 3 "...") in Hblank
    as [_ Hblank]; [|by intros c ->%is_char_true|done|simpl; auto|done].
  by apply (sub_runs_blank_back_ws isspace 1 " ") in Hblank.
Qed.

(** X23. [clean_text] returns the empty string exactly for the texts that are
    empty or consist of whitespace only. *)
Theorem clean_text_empty_iff text :
  clean_text text = "" ↔ every_char (λ c, isspace c = true) text.
Proof. split; [apply clean_text_blank_inv|apply clean_text_blank]. Qed.

(** *** Idempotence *)

Lemma rep_snoc n x : rep n x +:+ String x "" = rep (S n) x.
Proof. induction n as [|n IH]; [done|]. simpl. by rewrite app_cons, IH. Qed.

Lemma len_rep n x : len (rep n x) = n.
Proof. induction n; simpl; auto. Qed.

(** A pass over one character changes nothing when every run of that
    character is too short to match or is the replacement already. *)
Lemma sub_runs_settled x least m k :
  (∀ l, 0 < l ≤ k → l < least ∨ l = m) →
  ∀ s n, n ≤ k →
    run_bound (is_char x) k n s →
    sub_runs (is_char x) least (rep m x) (rep n x) s = rep n x +:+ s.
Proof.
  intros Hk.
  assert (∀ n, n ≤ k → flush_run least (rep m x) (rep n x) = rep n x)
    as Hflush.
  { intros [|n] Hn; [done|]. simpl. case_decide as Hl; [|done].
    rewrite len_rep in Hl. destruct (Hk (S n)) as [?|<-]; [lia|lia|done]. }
  induction s as [|c s IH]; intros n Hn; simpl.
  - intros _. by rewrite Hflush, app_empty_r.
  - destruct (is_char x c) eqn:Hc.
    + apply is_char_true in Hc as ->. intros [? Hs].
      rewrite rep_snoc, IH by done. by rewrite <- rep_snoc, app_assoc_string.
    + intros Hs. rewrite Hflush by done.
      pose proof (IH 0 ltac:(lia) Hs) as IH0. simpl in IH0. by rewrite IH0.
Qed.

(** The whitespace pass changes nothing when every whitespace character is
    a space and no two are adjacent. *)
Lemma sub_runs_spaced s :
  every_char (λ c, isspace c = true → c = " "%char) s →
  ∀ n, n ≤ 1 → run_bound isspace 1 n s →
       sub_runs isspace 1 " " (rep n " ") s = rep n " " +:+ s.
Proof.
  induction s as [|c s IH]; simpl; intros Hs n Hn.
  - intros _. destruct n as [|[|n]]; [done|done|lia].
  - destruct Hs as [Hc Hs]. destruct (isspace c) eqn:Hws.
    + rewrite Hc by done. intros [? Hb].
      rewrite rep_snoc, IH by done. by rewrite <- rep_snoc, app_assoc_string.
    + intros Hb. pose proof (IH Hs 0 ltac:(lia) Hb) as IH0. simpl in IH0.
      rewrite IH0. by destruct n as [|[|n]]; [..|lia].
Qed.

(** X24. Cleaning a cleaned text changes nothing. *)
Theorem clean_text_idempotent text :
  clean_text (clean_text text) = clean_text text.
Proof.
  destruct (clean_text_shape text)
    as (Hsp & Hb & Hstrip & Hdot & Hbang & Hq).
  set (t := clean_text text) in *. clearbody t.
  unfold clean_text. destruct (negb (truthy t)) eqn:Ht.
  { by destruct t. }
  assert (sub_runs isspace 1 " " "" t = t) as H1
    by exact (sub_runs_spaced t Hsp 0 ltac:(lia) Hb).
  assert (sub_runs (is_char ".") 3 "..." "" t = t) as H2
    by exact (sub_runs_settled "." 3 3 3 ltac:(lia) t 0 ltac:(lia) Hdot).
  assert (sub_runs (is_char "!") 2 "!" "" t = t) as H3
    by exact (sub_runs_settled "!" 2 1 1 ltac:(lia) t 0 ltac:(lia) Hbang).
  assert (sub_runs (is_char "?") 2 "?" "" t = t) as H4
    by exact (sub_runs_settled "?" 2 1 1 ltac:(lia) t 0 ltac:(lia) Hq).
  unfold re_sub. rewrite H1, H2, H3, H4.
  change (sub_runs is_crlftab 1 " " "" t) with (re_sub is_crlftab 1 " " t).
  by rewrite re_sub_crlftab_nothing.
Qed.

(** A run of the six passes. *)
Example clean_text_example :
  clean_text (" Hello   world!!!  What??  ....ok" +:+ nl +:+ " end.. ")
  = "Hello world! What? ...ok end..".
Proof. vm_compute. reflexivity. Qed.

End CleanTextFacts.

(** ** [process_url] over the code's own [extract_text] *)

Section CleanedPages.
Context {digest : Digest} {lib : SplitterLib}.

(** X25. A page whose text is empty or whitespace only is reported as empty
    content: [extract_text] returns the empty string for it, so the splitter
    and the store are not reached. *)
Theorem blank_page_is_empty_content w get_text u collection_name chunk_size
    chunk_overlap source_name s s1 html text :
  extract_text w = extract_text_with get_text →
  configure_splitter chunk_size chunk_overlap s = (inr tt, s1) →
  fetch_content w u = inr html →
  get_text html = inr text →
  every_char (λ c, PyStr.isspace c = true) text →
  process_url w u collection_name chunk_size chunk_overlap source_name s
  = (inr (failure empty_content_message u), s1).
Proof.
  intros Hw Hconf Hfetch Htext Hblank.
  rewrite process_url_run, Hconf, Hfetch, Hw.
  unfold extract_text_with. rewrite Htext.
  by rewrite (clean_text_blank _ Hblank).
Qed.

(** X26. What a successful [process_url] has split and counted is the cleaned
    text of the page, which is not empty: the text that the parser found holds
    a character that is not whitespace. *)
Theorem process_url_splits_cleaned_text w get_text u collection_name
    chunk_size chunk_overlap source_name s r s' :
  extract_text w = extract_text_with get_text →
  process_url w u collection_name chunk_size chunk_overlap source_name s
    = (inr r, s') →
  success r = true →
  ∃ html text text_chunks,
    fetch_content w u = inr html
    ∧ get_text html = inr text
    ∧ ¬ every_char (λ c, PyStr.isspace c = true) text
    ∧ split_text (text_splitter s') (clean_text text) = inr text_chunks
    ∧ total_characters r = Some (PyStr.len (clean_text text))
    ∧ chunks_created r = length text_chunks.
Proof.
  intros Hw Hrun Hok.
  destruct (process_url_success _ _ _ _ _ _ _ _ _ Hrun Hok)
    as (html & cleaned & cs & Hf & Ht & Hfull & Hs & -> & _).
  rewrite Hw in Ht. unfold extract_text_with in Ht.
  destruct (get_text html) as [e|text] eqn:Hg; [done|].
  injection Ht as <-. exists html, text, cs.
  split_and!; [done|done| |done|done|done].
  intros Hblank. by rewrite (clean_text_blank _ Hblank) in Hfull.
Qed.

End CleanedPages.

(** ** Runs of the model *)

Section Runs.
#[local] Existing Instance plain_digest.
#[local] Existing Instance spec_splitter.

(** The default arguments leave whatever splitter is installed. *)
Lemma default_arguments_keep_splitter s :
  configure_splitter 1000 200 s = (inr tt, s).
Proof. reflexivity. Qed.

(** C4.  The chunks of a call depend on earlier calls on the same object:
    the page of eleven characters is one chunk for [process_url] with the
    default arguments on a new object, and four chunks for the same call on
    an object on which [process_url] ran before with [chunk_size = 5] and
    [chunk_overlap = 2], because the default arguments do not reinstall the
    default splitter. *)
Theorem stale_splitter_changes_chunks :
  let fresh := URLChunker_init ∅ in
  let used := (process_url quiet_world "http://h/p" "c" 5 2 None fresh).2 in
  ∃ r1 s1 r2 s2,
    process_url quiet_world "http://h/p" "c" 1000 200 None fresh
      = (inr r1, s1)
    ∧ process_url quiet_world "http://h/p" "c" 1000 200 None used
      = (inr r2, s2)
    ∧ text_splitter fresh = default_splitter
    ∧ text_splitter used ≠ default_splitter
    ∧ chunks_created r1 = 1
    ∧ chunks_created r2 = 4.
Proof.
  intros fresh used. eexists _, _, _, _.
  split; [vm_compute; reflexivity|].
  split; [vm_compute; reflexivity|].
  split; [reflexivity|]. split; [by vm_compute|].
  split; reflexivity.
Qed.

(** C2.  The hashed string is not injective: chunk 0 of the page at
    [http://h/v_1] with text [abc] and chunk 1 of the page at [http://h/v]
    with text [0_abc] are encoded as the same string, hence get the same
    id under every digest; ingesting both pages into one collection keeps
    two records for the three chunks. *)
Theorem chunk_key_collision :
  (VStr "http://h/v_1", 0, "abc") ≠ (VStr "http://h/v", 1, "0_abc")
  ∧ chunk_key (VStr "http://h/v_1") 0 "abc"
    = chunk_key (VStr "http://h/v") 1 "0_abc"
  ∧ (∀ digest : Digest,
       chunk_id (VStr "http://h/v_1") 0 "abc"
       = chunk_id (VStr "http://h/v") 1 "0_abc")
  ∧ ∃ rs s,
      process_multiple_urls two_page_world ["http://h/v_1"; "http://h/v"]
        "c" 5 0 None (URLChunker_init ∅) = (inr rs, s)
      ∧ chunks_created <$> rs = [1; 2]
      ∧ count_items "c" (chroma_manager s) = inr 2.
Proof.
  split; [done|]. split; [by vm_compute|].
  split; [intros d; unfold chunk_id; by vm_compute|].
  eexists _, _. split; [vm_compute; reflexivity|].
  split; by vm_compute.
Qed.

(** C5 at [chunk_size = 5], [chunk_overlap = 5]. *)
Lemma invalid_policy_rejected_run :
  process_url quiet_world "http://h/p" "c" 5 5 None (URLChunker_init ∅)
  = (inr (failure "invalid chunking policy" "http://h/p"),
     URLChunker_init ∅).
Proof.
  apply (invalid_policy_rejected quiet_world "http://h/p" "c" 5 5 None
           (URLChunker_init ∅)).
  right. lia.
Defined.

(** C6 where the fetch, the extraction, the chunking and the store write
    fail in turn, the last one after the store had written a record. *)
Lemma failures_are_structured_run :
  let failed (w : World) (lib : SplitterLib) (msg : string) :=
    ∃ r s',
      process_url (lib := lib) w "http://h/p" "c" 1000 200 None
        (URLChunker_init ∅) = (inr r, s')
      ∧ success r = false ∧ chunks_created r = 0 ∧ error r = Some msg in
  failed offline_world spec_splitter "connection refused"
  ∧ failed garbled_world spec_splitter "malformed markup"
  ∧ failed quiet_world refusing_splitter "cannot split"
  ∧ failed flaky_world spec_splitter "connection lost".
Proof.
  set (s := URLChunker_init ∅). simpl. split_and!.
  - destruct (failures_are_structured offline_world "http://h/p" "c"
                1000 200 None s) as (r & s' & Hrun & _ & _ & _ & Hsteps).
    exists r, s'. split; [exact Hrun|].
    destruct (Hsteps s eq_refl) as [Hfetch _].
    apply (Hfetch (ValueError "connection refused") eq_refl).
  - destruct (failures_are_structured garbled_world "http://h/p" "c"
                1000 200 None s) as (r & s' & Hrun & _ & _ & _ & Hsteps).
    exists r, s'. split; [exact Hrun|].
    destruct (Hsteps s eq_refl) as [_ Hpage].
    destruct (Hpage _ eq_refl) as [Hextract _].
    apply (Hextract (ValueError "malformed markup") eq_refl).
  - destruct (failures_are_structured (lib := refusing_splitter)
                quiet_world "http://h/p" "c" 1000 200 None s)
      as (r & s' & Hrun & _ & _ & _ & Hsteps).
    exists r, s'. split; [exact Hrun|].
    destruct (Hsteps s eq_refl) as [_ Hpage].
    destruct (Hpage _ eq_refl) as [_ Htext].
    destruct (Htext _ eq_refl eq_refl) as [Hchunk _].
    apply (Hchunk (ValueError "cannot split") s). reflexivity.
  - destruct (failures_are_structured flaky_world "http://h/p" "c"
                1000 200 None s) as (r & s' & Hrun & _ & _ & _ & Hsteps).
    exists r, s'. split; [exact Hrun|].
    destruct (Hsteps s eq_refl) as [_ Hpage].
    destruct (Hpage _ eq_refl) as [_ Htext].
    destruct (Htext _ eq_refl eq_refl) as [_ Hstore].
    eapply (Hstore _ s (ValueError "connection lost"));
      [vm_compute; reflexivity|].
    vm_compute. reflexivity.
Defined.

(** C10 on a page of three spaces. *)
Lemma blank_text_leaves_store_run :
  process_url blank_world "http://h/p" "c" 1000 200 None (URLChunker_init ∅)
  = (inr (failure empty_content_message "http://h/p"), URLChunker_init ∅).
Proof.
  assert (∀ c, c ∈ String.list_ascii_of_string "   " →
               PyStr.isspace c = true) as Hblank.
  { intros c Hc. simpl in Hc.
    repeat (apply elem_of_cons in Hc as [->|Hc]; [reflexivity|]).
    by apply elem_of_nil in Hc. }
  destruct (blank_text_leaves_store blank_world "http://h/p" "c" 1000 200
              None (URLChunker_init ∅) "   " "   " eq_refl eq_refl Hblank)
    as (r & s' & Hrun & _ & _ & _ & Hr).
  destruct (Hr (URLChunker_init ∅) eq_refl) as [-> ->]. exact Hrun.
Defined.


(** C8 on two calls that differ in the processing date, the source name
    and the collections of the object. *)
Lemma chunk_id_deterministic_run :
  let md1 := extract_metadata quiet_world "" "http://h/p" in
  let md2 := extract_metadata later_world "" "http://h/p" in
  let other := {| text_splitter := text_splitter small_chunker;
                  chroma_manager := {["c" := ∅]} |} in
  ∃ d1 d2,
    create_chunks "A. B. C. D." md1 None small_chunker
      = (inr d1, small_chunker)
    ∧ create_chunks "A. B. C. D." md2 (Some "crawl") other = (inr d2, other)
    ∧ metadatas d1 !! 1 ≠ metadatas d2 !! 1
    ∧ ids d1 !! 1 = Some (chunk_id (VStr "http://h/p") 1 ". B. ")
    ∧ ids d2 !! 1 = ids d1 !! 1.
Proof.
  intros md1 md2 other.
  assert (split_text (text_splitter small_chunker) "A. B. C. D."
          = inr ["A. "; ". B. "; ". C. "; ". D."]) as Hsplit
    by (by vm_compute).
  pose proof (create_chunks_split "A. B. C. D." md1 None small_chunker
                (VStr "http://h/p") _ (extract_metadata_url _ _ _) Hsplit)
    as H1.
  pose proof (create_chunks_split "A. B. C. D." md2 (Some "crawl") other
                (VStr "http://h/p") _ (extract_metadata_url _ _ _) Hsplit)
    as H2.
  eexists _, _. split; [exact H1|]. split; [exact H2|]. split.
  - simpl. intros Heq.
    apply (f_equal (λ m, m ≫= (.!! "processed_date"))) in Heq.
    vm_compute in Heq. discriminate Heq.
  - apply (chunk_id_deterministic "A. B. C. D." "A. B. C. D." md1 md2
             None (Some "crawl") small_chunker other _ _
             small_chunker other (VStr "http://h/p") 1 ". B. "
             (extract_metadata_url _ _ _) (extract_metadata_url _ _ _)
             H1 H2 eq_refl eq_refl).
Defined.



End Runs.

(** ** Runs of the rest of the code *)

Section MoreRuns.
#[local] Existing Instance plain_digest.
#[local] Existing Instance spec_splitter.

(** The chunks of the page of [quiet_world] under the splitter of
    [small_chunker]. *)
Lemma small_chunker_splits :
  split_text (text_splitter small_chunker) "A. B. C. D."
  = inr ["A. "; ". B. "; ". C. "; ". D."].
Proof. by vm_compute. Qed.

(** X1: [create_chunks] on the page of [quiet_world]: four chunks, four ids,
    four metadata dictionaries. *)
Lemma create_chunks_aligned_run :
  let md := extract_metadata quiet_world "" "http://h/p" in
  let cs := ["A. "; ". B. "; ". C. "; ". D."] in
  let data := {| chunks := cs;
                 ids := imap (chunk_id (VStr "http://h/p")) cs;
                 metadatas := imap (chunk_metadata md None) cs |} in
  small_chunker = small_chunker
  ∧ split_text (text_splitter small_chunker) "A. B. C. D." = inr cs
  ∧ length (ids data) = 4
  ∧ length (metadatas data) = 4.
Proof.
  intros md cs data.
  apply (create_chunks_aligned "A. B. C. D." md None small_chunker data
           small_chunker).
  apply create_chunks_split;
    [apply extract_metadata_url|apply small_chunker_splits].
Defined.

(** X2: the metadata of the second chunk of that page, with a source name. *)
Lemma create_chunks_metadata_run :
  let md := extract_metadata quiet_world "" "http://h/p" in
  let cs := ["A. "; ". B. "; ". C. "; ". D."] in
  let data := {| chunks := cs;
                 ids := imap (chunk_id (VStr "http://h/p")) cs;
                 metadatas := imap (chunk_metadata md (Some "crawl")) cs |} in
  ∃ m, metadatas data !! 1 = Some m
       ∧ m !! "chunk_index" = Some (VInt 1)
       ∧ m !! "chunk_size" = Some (VInt 5)
       ∧ m !! "source" = Some (VStr "crawl")
       ∧ ∀ k, k ≠ "chunk_index" → k ≠ "chunk_size" → k ≠ "source" →
              m !! k = md !! k.
Proof.
  intros md cs data.
  apply (create_chunks_metadata "A. B. C. D." md (Some "crawl") small_chunker
           data small_chunker 1 ". B. "); [|reflexivity].
  apply create_chunks_split;
    [apply extract_metadata_url|apply small_chunker_splits].
Defined.

(** X3: [create_chunks] on metadata without a [url]. *)
Lemma create_chunks_without_url_run :
  create_chunks "A. B. C. D." ∅ None small_chunker
  = (inl (KeyError "url"), small_chunker).
Proof.
  apply (create_chunks_without_url "A. B. C. D." ∅ None small_chunker
           ["A. "; ". B. "; ". C. "; ". D."]);
    [apply lookup_empty|apply small_chunker_splits].
Defined.

(** X5: the ids of the four chunks of the page under the stand-in digest. *)
Lemma create_chunks_ids_distinct_run :
  NoDup (imap (chunk_id (VStr "http://h/p"))
           ["A. "; ". B. "; ". C. "; ". D."]).
Proof.
  set (md := extract_metadata quiet_world "" "http://h/p").
  set (cs := ["A. "; ". B. "; ". C. "; ". D."]).
  apply (create_chunks_ids_distinct "A. B. C. D." md None small_chunker
           {| chunks := cs;
              ids := imap (chunk_id (VStr "http://h/p")) cs;
              metadatas := imap (chunk_metadata md None) cs |}
           small_chunker (VStr "http://h/p")).
  - apply extract_metadata_url.
  - apply create_chunks_split;
      [apply extract_metadata_url|apply small_chunker_splits].
  - intros i j c d _ _ Heq. exact Heq.
Defined.

(** X6: an ingestion into [c] next to an empty collection [d]. *)
Lemma process_url_other_collections_run :
  chroma_manager
    (process_url quiet_world "http://h/p" "c" 5 2 None
       (URLChunker_init {["d" := ∅]})).2 !! "d"
  = chroma_manager (URLChunker_init {["d" := ∅]}) !! "d".
Proof.
  apply (process_url_other_collections quiet_world "http://h/p" "c" 5 2 None
           (URLChunker_init {["d" := ∅]}) "d").
  done.
Defined.

(** X7: an ingestion into a new collection, with a store that does not
    raise, adds at most [chunks_created] records. *)
Lemma process_url_only_adds_run :
  let run := process_url quiet_world "http://h/p" "c" 5 2 None
               (URLChunker_init ∅) in
  ∃ r, run.1 = inr r
       ∧ size (default ∅ (chroma_manager run.2 !! "c"))
         ≤ size (default ∅ (chroma_manager (URLChunker_init ∅) !! "c"))
           + chunks_created r.
Proof.
  intros run.
  destruct (process_url_returns quiet_world "http://h/p" "c" 5 2 None
              (URLChunker_init ∅)) as (r & s' & Hrun & _).
  exists r. subst run. rewrite Hrun. split; [reflexivity|].
  apply (process_url_only_adds quiet_world "http://h/p" "c" 5 2 None
           (URLChunker_init ∅) r s' Hrun).
  intros ids. reflexivity.
Defined.

(** Why X7 asks for a store that does not raise: when the upsert raises
    after it has written a record, the result counts no chunk and the
    collection holds one. *)
Example failed_upsert_leaves_records :
  let run := process_url flaky_world "http://h/p" "c" 5 2 None
               (URLChunker_init ∅) in
  (∃ r, run.1 = inr r ∧ success r = false ∧ chunks_created r = 0)
  ∧ size (default ∅ (chroma_manager run.2 !! "c")) = 1.
Proof.
  intros run. split; [|by vm_compute].
  eexists. split; [vm_compute; reflexivity|done].
Qed.

(** X8: a failed fetch leaves no collection behind. *)
Lemma process_url_failure_writes_nothing_run :
  chroma_manager
    (process_url offline_world "http://h/p" "c" 5 2 None
       (URLChunker_init ∅)).2
  = ∅.
Proof.
  assert (∃ s', process_url offline_world "http://h/p" "c" 5 2 None
                  (URLChunker_init ∅)
                = (inr (failure "connection refused" "http://h/p"), s'))
    as [s' Hrun] by (eexists; vm_compute; reflexivity).
  rewrite Hrun.
  apply (process_url_failure_writes_nothing offline_world "http://h/p" "c"
           5 2 None (URLChunker_init ∅) _ s' (λ _, eq_refl) Hrun eq_refl).
Defined.

(** X10: the record of the second chunk after an ingestion with a source
    name. *)
Lemma stored_chunks_can_be_looked_up_run :
  let s' := (process_url quiet_world "http://h/p" "c" 5 2 (Some "crawl")
               (URLChunker_init ∅)).2 in
  ∃ c, chroma_manager s' !! "c" = Some c
       ∧ c !! chunk_id (VStr "http://h/p") 1 ". B. "
         = Some (". B. ",
                 chunk_metadata
                   (extract_metadata quiet_world "A. B. C. D." "http://h/p")
                   (Some "crawl") 1 ". B. ").
Proof.
  intros s'.
  assert (∃ r s0,
            process_url quiet_world "http://h/p" "c" 5 2 (Some "crawl")
              (URLChunker_init ∅) = (inr r, s0)
            ∧ success r = true
            ∧ text_splitter s0 = text_splitter small_chunker)
    as (r & s0 & Hrun & Hok & Hsplitter).
  { eexists _, _. split.
    - apply (process_url_quiet _ _ _ _ _ _ _ small_chunker "A. B. C. D."
               "A. B. C. D." ["A. "; ". B. "; ". C. "; ". D."]);
        first [reflexivity|apply small_chunker_splits].
    - done. }
  subst s'. rewrite Hrun.
  destruct (stored_chunks_can_be_looked_up quiet_world "http://h/p" "c" 5 2
              (Some "crawl") (URLChunker_init ∅) r s0 Hrun Hok)
    as (html & text & cs & c & Hf & Ht & Hs & _ & Hc & Hlook).
  injection Hf as <-. injection Ht as <-.
  rewrite Hsplitter, small_chunker_splits in Hs. injection Hs as <-.
  exists c. split; [exact Hc|].
  apply (Hlook (λ _ _ _ _ _ _ Heq, Heq) 1 ". B. " eq_refl).
Defined.

(** X11: the count after the first ingestion of the page. *)
Lemma first_ingestion_count_run :
  let run := process_url quiet_world "http://h/p" "c" 5 2 None
               (URLChunker_init ∅) in
  count_items "c" (chroma_manager run.2) = inr 4.
Proof.
  intros run.
  assert (∃ r s0,
            process_url quiet_world "http://h/p" "c" 5 2 None
              (URLChunker_init ∅) = (inr r, s0)
            ∧ success r = true ∧ chunks_created r = 4)
    as (r & s0 & Hrun & Hok & Hn).
  { eexists _, _. split.
    - apply (process_url_quiet _ _ _ _ _ _ _ small_chunker "A. B. C. D."
               "A. B. C. D." ["A. "; ". B. "; ". C. "; ". D."]);
        first [reflexivity|apply small_chunker_splits].
    - done. }
  subst run. rewrite Hrun.
  destruct (first_ingestion_count quiet_world "http://h/p" "c" 5 2 None
              (URLChunker_init ∅) r s0 Hrun Hok eq_refl)
    as (html & text & cs & _ & _ & _ & Hcount).
  rewrite <- Hn. apply Hcount. intros i j c d _ _ Heq. exact Heq.
Defined.

(** X12: a batch of two URLs into [c] next to an empty collection [d]. *)
Lemma batch_only_adds_run :
  let s := URLChunker_init {["d" := ∅]} in
  let run := process_multiple_urls quiet_world ["http://h/p"; "http://h/q"]
               "c" 5 2 None s in
  ∃ rs, run.1 = inr rs
        ∧ chroma_manager run.2 !! "d" = chroma_manager s !! "d"
        ∧ size (default ∅ (chroma_manager run.2 !! "c"))
          ≤ size (default ∅ (chroma_manager s !! "c")) + total_chunks rs.
Proof.
  intros s run.
  destruct (batch_loop_total quiet_world "c" 5 2 None
              ["http://h/p"; "http://h/q"] s) as (rs & s' & Hloop & _).
  pose proof (Hloop []) as Hrun. change ([] ++ rs) with rs in Hrun.
  exists rs. subst run. unfold process_multiple_urls. rewrite Hrun.
  split; [reflexivity|].
  destruct (batch_only_adds quiet_world ["http://h/p"; "http://h/q"] "c" 5 2
              None s rs s' Hrun) as (Hother & _ & Hsize).
  split; [by apply Hother|]. apply Hsize. intros ids. reflexivity.
Defined.

(** X13: the counts of a batch of two URLs with the content source down. *)
Lemma batch_totals_run :
  let run := process_multiple_urls offline_world
               ["http://h/p"; "http://h/q"] "c" 5 2 None
               (URLChunker_init ∅) in
  ∃ rs, run.1 = inr rs
        ∧ total_chunks rs = total_chunks (filter (λ r, success r = true) rs)
        ∧ successful rs ≤ 2.
Proof.
  intros run.
  destruct (batch_loop_total offline_world "c" 5 2 None
              ["http://h/p"; "http://h/q"] (URLChunker_init ∅))
    as (rs & s' & Hloop & _).
  pose proof (Hloop []) as Hrun. change ([] ++ rs) with rs in Hrun.
  exists rs. subst run. unfold process_multiple_urls. rewrite Hrun.
  split; [reflexivity|].
  apply (batch_totals offline_world ["http://h/p"; "http://h/q"] "c" 5 2
           None (URLChunker_init ∅) rs s' Hrun).
Defined.

(** X14: a batch with [chunk_size = 0]. *)
Lemma batch_with_rejected_policy_run :
  process_multiple_urls quiet_world ["http://h/p"; "http://h/q"] "c" 0 0
    None (URLChunker_init ∅)
  = (inr [failure "invalid chunking policy" "http://h/p";
          failure "invalid chunking policy" "http://h/q"],
     URLChunker_init ∅).
Proof.
  apply (batch_with_rejected_policy quiet_world
           ["http://h/p"; "http://h/q"] "c" 0 0 None (URLChunker_init ∅)
           (InvalidPolicyError "invalid chunking policy"));
    [left; lia|reflexivity].
Defined.

(** X16: [add_texts] called again on the store it left. *)
Lemma add_texts_twice_run :
  ∃ st1,
    add_texts quiet_world "c" ["A. B. C. D."] None (Some "notes") 5 2 ∅
    = (inr tt, st1)
    ∧ add_texts quiet_world "c" ["A. B. C. D."] None (Some "notes") 5 2 st1
      = (inr tt, st1).
Proof.
  assert (∃ st1,
            add_texts quiet_world "c" ["A. B. C. D."] None (Some "notes")
              5 2 ∅ = (inr tt, st1)) as [st1 Hrun].
  { apply (add_texts_quiet _ _ _ _ _ _ _ _
             {| splitter_size := 5; splitter_overlap := 2;
                splitter_separators := library_separators |}
             {| chunks := ["A. "; ". B. "; ". C. "; ". D."];
                ids := ["A. "; ". B. "; ". C. "; ". D."];
                metadatas := replicate 4 {["source" := VStr "notes"]} |});
      first [reflexivity|by vm_compute]. }
  exists st1. split; [exact Hrun|].
  apply (add_texts_twice quiet_world "c" ["A. B. C. D."] None (Some "notes")
           5 2 ∅ st1 Hrun).
Defined.

(** X18: two texts and one metadata dictionary: the second text gets an empty
    one. *)
Lemma add_texts_chunks_by_text_run :
  let splitter := {| splitter_size := 5; splitter_overlap := 2;
                     splitter_separators := library_separators |} in
  let m : Metadata := {["author" := VStr "AI"]} in
  ∃ data,
    add_texts_loop splitter (Some [m]) None 0 ["A. B."; "C"]
      {| chunks := []; ids := []; metadatas := [] |} = inr data
    ∧ text_metadata (Some [m]) None 1 = text_metadata None None 1
    ∧ text_metadata (Some [m]) None 0 = m.
Proof.
  intros splitter m.
  assert (∃ data,
            add_texts_loop splitter (Some [m]) None 0 ["A. B."; "C"]
              {| chunks := []; ids := []; metadatas := [] |} = inr data)
    as [data Hloop] by (eexists; vm_compute; reflexivity).
  destruct (add_texts_chunks_by_text splitter (Some [m]) None
              ["A. B."; "C"] data Hloop) as (_ & Hshort & Hentry).
  exists data. split; [exact Hloop|]. split.
  - apply (Hshort 1 [m] eq_refl). simpl. lia.
  - apply (Hentry 0 [m] m eq_refl eq_refl).
Defined.

(** X19: [add_texts] with no text. *)
Lemma add_texts_nothing_to_add_run :
  add_texts quiet_world "c" [] None None 5 2 ∅
  = (inr tt, client_get_or_create "c" ∅)
  ∧ client_get_or_create "c" (∅ : Store) !! "c"
    = Some (default ∅ ((∅ : Store) !! "c")).
Proof.
  apply (add_texts_nothing_to_add quiet_world "c" [] None None 5 2 ∅
           {| splitter_size := 5; splitter_overlap := 2;
              splitter_separators := library_separators |});
    [reflexivity|reflexivity|constructor].
Defined.

(** X20: [add_texts] over a splitter that raises: the new collection stays. *)
Lemma add_texts_failure_writes_nothing_run :
  (add_texts (lib := refusing_splitter) quiet_world "c" ["A. B."] None None
     5 2 ∅).2
  = client_get_or_create "c" ∅.
Proof.
  assert (∃ st', add_texts (lib := refusing_splitter) quiet_world "c"
                   ["A. B."] None None 5 2 ∅
                 = (inl (ValueError "cannot split"), st'))
    as [st' Hrun] by (eexists; vm_compute; reflexivity).
  rewrite Hrun.
  apply (add_texts_failure_writes_nothing (lib := refusing_splitter)
           quiet_world "c" ["A. B."] None None 5 2 ∅ st' _ (λ _, eq_refl)
           Hrun).
Defined.

(** X25: a page of spaces and line breaks. *)
Lemma blank_page_is_empty_content_run :
  let page := "  " +:+ nl +:+ " " in
  process_url (plain_text_world page) "http://h/p" "c" 1000 200 None
    (URLChunker_init ∅)
  = (inr (failure empty_content_message "http://h/p"), URLChunker_init ∅).
Proof.
  intros page.
  apply (blank_page_is_empty_content (plain_text_world page) inr
           "http://h/p" "c" 1000 200 None (URLChunker_init ∅)
           (URLChunker_init ∅) page page eq_refl eq_refl eq_refl eq_refl).
  simpl. auto.
Defined.

(** X26: a page with repeated spaces and exclamation marks. *)
Lemma process_url_splits_cleaned_text_run :
  let page := " Hello   world!!! " in
  let run := process_url (plain_text_world page) "http://h/p" "c" 1000 200
               None (URLChunker_init ∅) in
  ∃ r text_chunks,
    run.1 = inr r
    ∧ clean_text page = "Hello world!"
    ∧ split_text (text_splitter run.2) "Hello world!" = inr text_chunks
    ∧ total_characters r = Some 12
    ∧ chunks_created r = length text_chunks.
Proof.
  intros page run.
  assert (clean_text page = "Hello world!") as Hclean by (by vm_compute).
  assert (∃ r s0,
            process_url (plain_text_world page) "http://h/p" "c" 1000 200
              None (URLChunker_init ∅) = (inr r, s0)
            ∧ success r = true) as (r & s0 & Hrun & Hok).
  { eexists _, _. split.
    - apply (process_url_quiet _ _ _ _ _ _ _ (URLChunker_init ∅) page
               "Hello world!" ["Hello world!"]);
        first [reflexivity|by vm_compute].
    - done. }
  destruct (process_url_splits_cleaned_text (plain_text_world page) inr
              "http://h/p" "c" 1000 200 None (URLChunker_init ∅) r s0
              eq_refl Hrun Hok)
    as (html & text & cs & Hf & Ht & _ & Hs & Hlen & Hn).
  injection Hf as <-. injection Ht as <-.
  rewrite Hclean in Hs, Hlen.
  subst run. rewrite Hrun. eexists _, cs. by split_and!.
Defined.

End MoreRuns.
